(** * py-xpd: a textual macro preprocessor

    A shallow embedding of the py-xpd sources (ast.py, report.py,
    tokenize.py, match2.py, expand.py, main.py) together with the
    properties of the lexer, the directive recognizer and the expander
    that are checked against it.

    Python [str] values are modelled as [string]; a character is an
    [ascii].  Dictionaries keyed by names are [gmap string _].
    Generators are modelled by the list of items they yield together with
    the way they end; exceptions are values of type [Exn]. *)

From Stdlib Require Import Ascii.
From stdpp Require Import base option list gmap strings pretty.

Local Open Scope nat_scope.

(** ** ast.py *)

Inductive PieceKind :=
| PIECE_COMMA | PIECE_COMMENT | PIECE_EOF | PIECE_EOL | PIECE_IDENTIFIER
| PIECE_PARCLOSE | PIECE_PAROPEN | PIECE_SPACES | PIECE_STRING | PIECE_TEXT.

Global Instance PieceKind_eq_dec : EqDecision PieceKind.
Proof. solve_decision. Defined.

Definition all_piece_kinds : list PieceKind :=
  [PIECE_COMMA; PIECE_COMMENT; PIECE_EOF; PIECE_EOL; PIECE_IDENTIFIER;
   PIECE_PARCLOSE; PIECE_PAROPEN; PIECE_SPACES; PIECE_STRING; PIECE_TEXT].

Definition NUM_PIECES : nat := 10.

(** report.Position *)
Record Position := mkPosition {
  lineno : nat;
  fname : option string;
  column : option nat
}.

Global Instance Position_eq_dec : EqDecision Position.
Proof. solve_decision. Defined.

(** [SubstrPiece] borrows the text of its line, [StrPiece] owns its text. *)
Inductive Piece :=
| SubstrPiece (kind : PieceKind) (pos : Position) (length : nat) (line_text : string)
| StrPiece (kind : PieceKind) (pos : Position) (text : string).

Global Instance Piece_eq_dec : EqDecision Piece.
Proof. solve_decision. Defined.

Definition piece_kind (p : Piece) : PieceKind :=
  match p with SubstrPiece k _ _ _ | StrPiece k _ _ => k end.

Definition piece_pos (p : Piece) : Position :=
  match p with SubstrPiece _ pos _ _ | StrPiece _ pos _ => pos end.

Definition get_length (p : Piece) : nat :=
  match p with
  | SubstrPiece _ _ len _ => len
  | StrPiece _ _ text => String.length text
  end.

(** [line_text[pos.column : pos.column + length]]; the constructor of
    [SubstrPiece] asserts that the column is present. *)
Definition get_text (p : Piece) : string :=
  match p with
  | SubstrPiece _ pos len line =>
      String.substring (default 0 (column pos)) len line
  | StrPiece _ _ text => text
  end.

(** ** tokenize.py *)

Definition ch_tab : ascii := "009"%char.
Definition ch_newline : ascii := "010"%char.
Definition ch_dquote : ascii := "034"%char.
Definition ch_backslash : ascii := "\"%char.

Definition in_range (lo hi : ascii) (c : ascii) : bool :=
  (nat_of_ascii lo <=? nat_of_ascii c) && (nat_of_ascii c <=? nat_of_ascii hi).

(** [[ \t]] *)
Definition is_space_tab (c : ascii) : bool :=
  bool_decide (c = " "%char) || bool_decide (c = ch_tab).

(** [[A-Za-z_]] *)
Definition is_ident_start (c : ascii) : bool :=
  in_range "A" "Z" c || in_range "a" "z" c || bool_decide (c = "_"%char).

(** [[A-Za-z0-9_]] *)
Definition is_ident_char (c : ascii) : bool :=
  is_ident_start c || in_range "0" "9" c.

(** The longest prefix of [s] made of characters satisfying [f]. *)
Fixpoint run_length (f : ascii → bool) (s : string) : nat :=
  match s with
  | String c s' => if f c then S (run_length f s') else 0
  | EmptyString => 0
  end.

(** The last character of a string, [line[-1]]. *)
Fixpoint last_char (s : string) : option ascii :=
  match s with
  | EmptyString => None
  | String c EmptyString => Some c
  | String _ s' => last_char s'
  end.

Definition ends_with_newline (line : string) : bool :=
  bool_decide (last_char line = Some ch_newline).

(** [len(line) - 1 if line[-1] == '\n' else len(line)] *)
Definition end_before_newline (line : string) : nat :=
  if ends_with_newline line then String.length line - 1 else String.length line.

(** [line.find("*/", search_start)] is [String.index search_start "*/" line]. *)
Definition find_end_of_block_comment_piece (line : string) (search_start : nat)
  : nat * bool :=
  match String.index search_start "*/" line with
  | None => (end_before_newline line, false)
  | Some i => (i + 2, true)
  end.

(** The lines a file object yields when iterated: each line keeps its
    terminating newline, the last line may lack one. *)
Fixpoint split_lines_go (cur : string) (s : string) : list string :=
  match s with
  | EmptyString => match cur with EmptyString => [] | _ => [String.rev cur] end
  | String c s' =>
      if bool_decide (c = ch_newline)
      then String.rev (String c cur) :: split_lines_go EmptyString s'
      else split_lines_go (String c cur) s'
  end.

Definition line_stream_file (content : string) : list string :=
  split_lines_go EmptyString content.

Section Lexer.

(** The regular-expression engine decides [\b] with its Unicode notion of a
    word character; on ASCII that is [[A-Za-z0-9_]], outside ASCII the
    class is left as a parameter. *)
Context (unicode_word : ascii → bool).

Definition is_word (c : ascii) : bool :=
  if nat_of_ascii c <? 128 then is_ident_char c else unicode_word c.

Inductive Regex := SPACES_PAT | STRING_PAT | IDENTIFIER_PAT.

Global Instance Regex_eq_dec : EqDecision Regex.
Proof. solve_decision. Defined.

(** [SPACES_PAT.search]: [s] is the part of the line from index [i] on. *)
Fixpoint spaces_search (s : string) (i col : nat) : option (nat * nat) :=
  match s with
  | EmptyString => None
  | String c s' =>
      if (col <=? i) && is_space_tab c
      then Some (i, S i + run_length is_space_tab s')
      else spaces_search s' (S i) col
  end.

(** The part of [STRING_PAT] after the opening quote: the number of
    characters up to and including the closing quote.  The class of
    characters other than quote and backslash accepts a newline, the dot
    after a backslash does not. *)
Fixpoint string_body (s : string) : option nat :=
  match s with
  | EmptyString => None
  | String c s' =>
      if bool_decide (c = ch_dquote) then Some 1
      else if bool_decide (c = ch_backslash) then
        match s' with
        | EmptyString => None
        | String d s'' =>
            if bool_decide (d = ch_newline) then None
            else (λ n, S (S n)) <$> string_body s''
        end
      else S <$> string_body s'
  end.

Fixpoint string_search (s : string) (i col : nat) : option (nat * nat) :=
  match s with
  | EmptyString => None
  | String c s' =>
      if (col <=? i) && bool_decide (c = ch_dquote) then
        match string_body s' with
        | Some n => Some (i, S i + n)
        | None => string_search s' (S i) col
        end
      else string_search s' (S i) col
  end.

(** [IDENTIFIER_PAT.search]: [prev] is the character before index [i], which
    [\b] inspects even when it lies before the start of the search. *)
Fixpoint identifier_search (prev : option ascii) (s : string) (i col : nat)
  : option (nat * nat) :=
  match s with
  | EmptyString => None
  | String c s' =>
      if (col <=? i) && is_ident_start c
         && negb (from_option is_word false prev)
      then Some (i, S i + run_length is_ident_char s')
      else identifier_search (Some c) s' (S i) col
  end.

Definition regex_search (r : Regex) (line : string) (col : nat)
  : option (nat * nat) :=
  match r with
  | SPACES_PAT => spaces_search line 0 col
  | STRING_PAT => string_search line 0 col
  | IDENTIFIER_PAT => identifier_search None line 0 col
  end.

(** An entry of the table scanned in ordinary mode: a pattern or a literal,
    and the kind of piece it makes. *)
Inductive Matcher := ByPattern (r : Regex) | ByLiteral (lit : string).

Global Instance Matcher_eq_dec : EqDecision Matcher.
Proof. solve_decision. Defined.

Definition entries : list (Matcher * PieceKind) :=
  [ (ByPattern SPACES_PAT, PIECE_SPACES);
    (ByPattern STRING_PAT, PIECE_STRING);
    (ByPattern IDENTIFIER_PAT, PIECE_IDENTIFIER);
    (ByLiteral "/*", PIECE_COMMENT);
    (ByLiteral "//", PIECE_COMMENT);
    (ByLiteral "(", PIECE_PAROPEN);
    (ByLiteral ")", PIECE_PARCLOSE);
    (ByLiteral ",", PIECE_COMMA) ].

Definition entry_search (m : Matcher) (line : string) (col : nat)
  : option (nat * nat) :=
  match m with
  | ByPattern r => regex_search r line col
  | ByLiteral lit =>
      (λ start, (start, start + String.length lit)) <$> String.index col lit line
  end.

(** The loop over the entries: the earliest start wins, the first entry
    wins among equal starts, and a match at index 0 ends the loop. *)
Fixpoint find_best (es : list (Matcher * PieceKind)) (line : string) (col : nat)
    (best : option ((Matcher * PieceKind) * nat * nat))
  : option ((Matcher * PieceKind) * nat * nat) :=
  match es with
  | [] => best
  | entry :: es' =>
      match entry_search entry.1 line col with
      | None => find_best es' line col best
      | Some (start, end_) =>
          let better :=
            match best with
            | None => true
            | Some (_, best_start, _) => start <? best_start
            end in
          if better then
            if start =? 0 then Some (entry, start, end_)
            else find_best es' line col (Some (entry, start, end_))
          else find_best es' line col best
      end
  end.

Definition at_column (lineno : nat) (fname : option string) (col : nat) : Position :=
  mkPosition lineno fname (Some col).

(** One iteration of [while col < len(line)]: the pieces yielded, the new
    column and the new comment mode. *)
Definition tokenize_step (fname : option string) (lineno : nat) (line : string)
    (col : nat) (comment_mode : bool) : list Piece * nat * bool :=
  if bool_decide (String.get col line = Some ch_newline) then
    ([StrPiece PIECE_EOL (at_column lineno fname col) (String ch_newline EmptyString)],
     col + 1, comment_mode)
  else if comment_mode then
    let '(end_, eoc_found) := find_end_of_block_comment_piece line col in
    ([SubstrPiece PIECE_COMMENT (at_column lineno fname col) (end_ - col) line],
     end_, negb eoc_found)
  else
    match find_best entries line col None with
    | None =>
        let end_ := end_before_newline line in
        ([SubstrPiece PIECE_TEXT (at_column lineno fname col) (end_ - col) line],
         end_, comment_mode)
    | Some (best, best_start, best_end) =>
        let before :=
          if col <? best_start
          then [SubstrPiece PIECE_TEXT (at_column lineno fname col) (best_start - col) line]
          else [] in
        let col := if col <? best_start then best_start else col in
        if bool_decide (best.1 = ByLiteral "/*") then
          let '(end_, eoc_found) := find_end_of_block_comment_piece line (col + 2) in
          (before ++ [SubstrPiece PIECE_COMMENT (at_column lineno fname col) (end_ - col) line],
           end_, negb eoc_found)
        else if bool_decide (best.1 = ByLiteral "//") then
          let end_ := end_before_newline line in
          (before ++ [SubstrPiece best.2 (at_column lineno fname col) (end_ - col) line],
           end_, comment_mode)
        else
          (before ++ [SubstrPiece best.2 (at_column lineno fname col) (best_end - best_start) line],
           best_end, comment_mode)
    end.

(** The [while] loop over one line; [None] when [fuel] iterations do not
    reach the end of the line. *)
Fixpoint tokenize_line (fuel : nat) (fname : option string) (lineno : nat)
    (line : string) (col : nat) (comment_mode : bool)
  : option (list Piece * bool) :=
  if String.length line <=? col then Some ([], comment_mode)
  else
    match fuel with
    | 0 => None
    | S fuel' =>
        let '(ps, col', mode') := tokenize_step fname lineno line col comment_mode in
        '(rest, mode'') ← tokenize_line fuel' fname lineno line col' mode';
        Some (ps ++ rest, mode'')
    end.

Definition EOF_TEXT : string := "EOF-EOF-EOF".

(** The [for] loop over the lines, then the end-of-file piece. *)
Fixpoint tokenize_lines (fname : option string) (lines : list string)
    (lineno : nat) (comment_mode : bool) : option (list Piece) :=
  match lines with
  | [] => Some [StrPiece PIECE_EOF (mkPosition lineno fname (Some 0)) EOF_TEXT]
  | line :: lines' =>
      '(ps, mode') ← tokenize_line (String.length line) fname lineno line 0 comment_mode;
      rest ← tokenize_lines fname lines' (S lineno) mode';
      Some (ps ++ rest)
  end.

(** [tokenize(fname)] on a file with the given content. *)
Definition tokenize (fname : option string) (content : string) : option (list Piece) :=
  tokenize_lines fname (line_stream_file content) 1 false.

End Lexer.

(** ** Exceptions and the ways a generator ends *)

(** [SystemExit] carries the line [report_error] printed before it called
    [sys.exit(1)]. *)
Inductive Exn :=
| SystemExit (printed : string)
| AssertionError (msg : string)
| AttributeError (msg : string)
| TypeError (msg : string)
| IndexError (msg : string)
| KeyError (msg : string)
| FileNotFoundError (name : option string)
| OutOfFuel.

Global Instance Exn_eq_dec : EqDecision Exn.
Proof. solve_decision. Defined.

Inductive Ending := Returned | Raised (e : Exn).

Global Instance Ending_eq_dec : EqDecision Ending.
Proof. solve_decision. Defined.

Inductive Res (A : Type) := Ok (a : A) | Err (e : Exn).
Global Arguments Ok {A} a.
Global Arguments Err {A} e.

(** ** report.py *)

Definition PROGRNAME : string := "py-xpd".

Definition quoted (s : string) : string :=
  String ch_dquote (s +:+ String ch_dquote EmptyString).

(** [", ".join(elements)] and the like. *)
Fixpoint join (sep : string) (l : list string) : string :=
  match l with
  | [] => EmptyString
  | [x] => x
  | x :: l' => x +:+ sep +:+ join sep l'
  end.

(** [Position.__str__] *)
Definition position_str (p : Position) : string :=
  join ", "
    (match fname p with Some f => ["in " +:+ quoted f] | None => [] end
     ++ ["at line " +:+ pretty (lineno p)]
     ++ match column p with Some c => ["column " +:+ pretty (c + 1)] | None => [] end).

(** [Position.__lt__] *)
Definition position_lt (a b : Position) : bool :=
  if bool_decide (fname a ≠ fname b) then
    match fname a, fname b with
    | None, _ => true
    | _, None => false
    | Some f, Some g => String.ltb f g
    end
  else if bool_decide (lineno a ≠ lineno b) then lineno a <? lineno b
  else if bool_decide (column a ≠ column b) then
    match column a, column b with
    | None, _ => true
    | _, None => false
    | Some c, Some d => c <? d
    end
  else false.

(** [lines.sort()]: a stable sort that compares with [<] only. *)
Fixpoint insert_position (x : Position) (l : list Position) : list Position :=
  match l with
  | [] => [x]
  | y :: l' => if position_lt x y then x :: l else y :: insert_position x l'
  end.

Definition sort_positions (l : list Position) : list Position :=
  foldl (λ acc x, insert_position x acc) [] l.

Fixpoint unduplicate_from (last : option Position) (lines : list Position)
  : list Position :=
  match lines with
  | [] => []
  | line :: lines' =>
      if bool_decide (Some line = last) then unduplicate_from last lines'
      else line :: unduplicate_from (Some line) lines'
  end.

Definition unduplicate (lines : list Position) : list Position :=
  unduplicate_from None lines.

Inductive ReportType := TypeErrorReport | TypeWarning | TypeInfo.

Global Instance ReportType_eq_dec : EqDecision ReportType.
Proof. solve_decision. Defined.

Definition SKIP_INFO : bool := false.

(** [report_error(lines, mesg, type, keep_running)]: the line printed (if
    any) and whether the call ends the program.  An absent [lines] is the
    empty list. *)
Definition report_error (lines : list Position) (mesg : string)
    (type : ReportType) (keep_running : bool) : option string * bool :=
  if bool_decide (type = TypeInfo) && SKIP_INFO then (None, false)
  else
    let '(type_text, fatal) :=
      match type with
      | TypeWarning => ("warning", false)
      | TypeInfo => ("info", false)
      | TypeErrorReport => ("ERROR", true)
      end in
    let lines_text :=
      match unduplicate (sort_positions lines) with
      | [] => EmptyString
      | [l0] => " at line " +:+ position_str l0
      | [l0; l1] => " at lines " +:+ position_str l0 +:+ " and " +:+ position_str l1
      | ls => " at lines " +:+ join ", " (position_str <$> removelast ls)
              +:+ ", and " +:+ position_str (List.last ls (mkPosition 0 None None))
      end in
    (Some (PROGRNAME +:+ " " +:+ type_text +:+ lines_text +:+ ": " +:+ mesg),
     fatal && negb keep_running).

(** A fatal report: print the line, then [sys.exit(1)]. *)
Definition fatal_report (lines : list Position) (mesg : string) : Exn :=
  SystemExit (default EmptyString (report_error lines mesg TypeErrorReport false).1).

(** ** match2.py *)

Definition MAX_INCLUDE_LEVEL : nat := 10.

(** *** DefinePiece, IncludePiece, EndMacroPiece *)

Record DefinePiece := mkDefinePiece {
  def_pos : option Position;
  def_name : option string;
  def_parameters : list Piece;
  def_content : list Piece;
  def_storeds : list Piece
}.

Record IncludePiece := mkIncludePiece {
  inc_pos : option Position;
  inc_filename : option string;
  inc_storeds : list Piece
}.

Record EndMacroPiece := mkEndMacroPiece {
  end_pos : option Position;
  end_storeds : list Piece
}.

Inductive Sequence :=
| SeqDefine (d : DefinePiece)
| SeqInclude (i : IncludePiece)
| SeqEndMacro (e : EndMacroPiece).

Global Instance DefinePiece_eq_dec : EqDecision DefinePiece.
Proof. solve_decision. Defined.
Global Instance IncludePiece_eq_dec : EqDecision IncludePiece.
Proof. solve_decision. Defined.
Global Instance EndMacroPiece_eq_dec : EqDecision EndMacroPiece.
Proof. solve_decision. Defined.
Global Instance Sequence_eq_dec : EqDecision Sequence.
Proof. solve_decision. Defined.

Definition new_DefinePiece : DefinePiece := mkDefinePiece None None [] [] [].
Definition new_IncludePiece : IncludePiece := mkIncludePiece None None [].
Definition new_EndMacroPiece : EndMacroPiece := mkEndMacroPiece None [].

Definition storeds (s : Sequence) : list Piece :=
  match s with
  | SeqDefine d => def_storeds d
  | SeqInclude i => inc_storeds i
  | SeqEndMacro e => end_storeds e
  end.

(** [sequence.storeds.append(piece)] *)
Definition storeds_append (s : Sequence) (piece : Piece) : Sequence :=
  match s with
  | SeqDefine d =>
      SeqDefine (mkDefinePiece (def_pos d) (def_name d) (def_parameters d)
                   (def_content d) (def_storeds d ++ [piece]))
  | SeqInclude i =>
      SeqInclude (mkIncludePiece (inc_pos i) (inc_filename i) (inc_storeds i ++ [piece]))
  | SeqEndMacro e => SeqEndMacro (mkEndMacroPiece (end_pos e) (end_storeds e ++ [piece]))
  end.

(** [ESCAPES.get(c, c)] *)
Definition escape (c : ascii) : ascii :=
  if bool_decide (c = "n"%char) then ch_newline
  else if bool_decide (c = "t"%char) then ch_tab
  else c.

(** The loop of [unescape] on [s[i:]]; it stops at the last character. *)
Fixpoint unescape_from (s : string) : string :=
  match s with
  | EmptyString => EmptyString
  | String c s' =>
      match s' with
      | EmptyString => EmptyString
      | String d s'' =>
          if bool_decide (c = ch_backslash) then String (escape d) (unescape_from s'')
          else String c (unescape_from s')
      end
  end.

Definition unescape (s : string) : Res string :=
  match s with
  | EmptyString => Err (IndexError "string index out of range")
  | String c s' =>
      if bool_decide (c = ch_dquote) && bool_decide (last_char s = Some ch_dquote)
      then Ok (unescape_from s')
      else Err (AssertionError EmptyString)
  end.

(** The first parameter already stored under the name [name]. *)
Definition duplicate_parameter (name : string) (parameters : list Piece) : option Piece :=
  List.find (λ p, bool_decide (name = get_text p)) parameters.

Definition unknown_store (where_ : string) : Exn :=
  AssertionError ("Don't know about '" +:+ where_ +:+ "'").

(** [sequence.store(piece, where)] for the three classes. *)
Definition store (s : Sequence) (piece : Piece) (where_ : string) : Res Sequence :=
  match s with
  | SeqDefine d =>
      if bool_decide (where_ = "position") then
        Ok (SeqDefine (mkDefinePiece (Some (piece_pos piece)) (def_name d)
                         (def_parameters d) (def_content d) (def_storeds d)))
      else if bool_decide (where_ = "name") then
        Ok (SeqDefine (mkDefinePiece (def_pos d) (Some (get_text piece))
                         (def_parameters d) (def_content d) (def_storeds d)))
      else if bool_decide (where_ = "parameter") then
        let name := get_text piece in
        match duplicate_parameter name (def_parameters d) with
        | Some p =>
            Err (fatal_report [piece_pos piece; piece_pos p]
                   ("Macro definition parameter '" +:+ name
                    +:+ "' is listed more than once"))
        | None =>
            Ok (SeqDefine (mkDefinePiece (def_pos d) (def_name d)
                             (def_parameters d ++ [piece]) (def_content d)
                             (def_storeds d)))
        end
      else Err (unknown_store where_)
  | SeqInclude i =>
      if bool_decide (where_ = "position") then
        Ok (SeqInclude (mkIncludePiece (Some (piece_pos piece)) (inc_filename i)
                          (inc_storeds i)))
      else if bool_decide (where_ = "filename") then
        match unescape (get_text piece) with
        | Ok f => Ok (SeqInclude (mkIncludePiece (inc_pos i) (Some f) (inc_storeds i)))
        | Err e => Err e
        end
      else Err (unknown_store where_)
  | SeqEndMacro e =>
      if bool_decide (where_ = "position") then
        Ok (SeqEndMacro (mkEndMacroPiece (Some (piece_pos piece)) (end_storeds e)))
      else Err (unknown_store where_)
  end.

(** *** The state machine *)

Record Edge := mkEdge {
  edge_kind : PieceKind;
  edge_text : option string;
  edge_goto : option nat;
  edge_sequence_action : option string;
  edge_store : option string
}.

Global Instance Edge_eq_dec : EqDecision Edge.
Proof. solve_decision. Defined.

Inductive State :=
| MatchState (state_num : nat) (expected_sequence : string) (edges : list Edge)
| FinishState (state_num : nat) (expected_sequence : string) (goto : option nat).

Definition state_num (s : State) : nat :=
  match s with MatchState n _ _ | FinishState n _ _ => n end.

Definition expected_sequence (s : State) : string :=
  match s with MatchState _ e _ | FinishState _ e _ => e end.

Definition STATE1 := 1.
Definition STATE2 := 2.
Definition STATE11 := 11.
Definition STATE12 := 12.
Definition STATE13 := 13.
Definition STATE14 := 14.
Definition STATE15 := 15.
Definition STATE18 := 18.
Definition STATE21 := 21.
Definition STATE22 := 22.
Definition STATE23 := 23.
Definition STATE28 := 28.
Definition STATE29 := 29.
Definition STATE31 := 31.
Definition STATE99 := 99.

(** Shorthands for the shapes of edge the table uses. *)
Definition stay (k : PieceKind) : Edge := mkEdge k None None None None.
Definition goto_ (k : PieceKind) (g : nat) : Edge := mkEdge k None (Some g) None None.
Definition discard (k : PieceKind) (g : nat) : Edge :=
  mkEdge k None (Some g) (Some "discard") None.
Definition discard_word (w : string) (g : nat) : Edge :=
  mkEdge PIECE_IDENTIFIER (Some w) (Some g) (Some "discard") None.
Definition open_ (w : string) (g : nat) : Edge :=
  mkEdge PIECE_IDENTIFIER (Some w) (Some g) (Some w) (Some "position").
Definition store_ (k : PieceKind) (slot : string) (g : nat) : Edge :=
  mkEdge k None (Some g) None (Some slot).

Definition STATES : list State := [
  (* At 'start' of line, trying to detect 'define' or 'include'. *)
  MatchState STATE1 "none" [
    goto_ PIECE_COMMA STATE2;
    goto_ PIECE_COMMENT STATE2;
    goto_ PIECE_EOF STATE99;
    stay PIECE_EOL;
    open_ "define" STATE11;
    open_ "include" STATE21;
    open_ "endmacro" STATE31;
    goto_ PIECE_IDENTIFIER STATE2;
    goto_ PIECE_PARCLOSE STATE2;
    goto_ PIECE_PAROPEN STATE2;
    stay PIECE_SPACES;
    goto_ PIECE_STRING STATE2;
    goto_ PIECE_TEXT STATE2 ];
  (* Found 'endmacro' *)
  FinishState STATE31 "endmacro" (Some STATE2);
  (* Definitely not a sequence, skip to start of next line. *)
  MatchState STATE2 "none" [
    stay PIECE_COMMA;
    stay PIECE_COMMENT;
    goto_ PIECE_EOF STATE99;
    goto_ PIECE_EOL STATE1;
    open_ "endmacro" STATE31;
    stay PIECE_IDENTIFIER;
    stay PIECE_PARCLOSE;
    stay PIECE_PAROPEN;
    stay PIECE_SPACES;
    stay PIECE_STRING;
    stay PIECE_TEXT ];
  (* Seen 'define', detect an identifier (the name of the macro) *)
  MatchState STATE11 "define" [
    discard PIECE_COMMA STATE2;
    discard PIECE_COMMENT STATE2;
    discard PIECE_EOF STATE99;
    discard PIECE_EOL STATE1;
    discard_word "define" STATE2;
    discard_word "include" STATE2;
    open_ "endmacro" STATE31;
    store_ PIECE_IDENTIFIER "name" STATE12;
    discard PIECE_PARCLOSE STATE2;
    discard PIECE_PAROPEN STATE2;
    stay PIECE_SPACES;
    discard PIECE_STRING STATE2;
    discard PIECE_TEXT STATE2 ];
  (* Seen a macro name, does it have parentheses/parameters? *)
  MatchState STATE12 "define" [
    discard PIECE_COMMA STATE2;
    discard PIECE_COMMENT STATE2;
    discard PIECE_EOF STATE99;
    discard PIECE_EOL STATE1;
    open_ "endmacro" STATE31;
    discard PIECE_IDENTIFIER STATE2;
    discard PIECE_PARCLOSE STATE2;
    goto_ PIECE_PAROPEN STATE13;
    stay PIECE_SPACES;
    discard PIECE_STRING STATE2;
    discard PIECE_TEXT STATE2 ];
  (* Seen open parenthesis, find first parameter or a closing parenthesis *)
  MatchState STATE13 "define" [
    discard PIECE_COMMA STATE2;
    discard PIECE_COMMENT STATE2;
    discard PIECE_EOF STATE99;
    discard PIECE_EOL STATE1;
    discard_word "define" STATE2;
    discard_word "include" STATE2;
    open_ "endmacro" STATE31;
    store_ PIECE_IDENTIFIER "parameter" STATE14;
    goto_ PIECE_PARCLOSE STATE18;
    discard PIECE_PAROPEN STATE2;
    stay PIECE_SPACES;
    discard PIECE_STRING STATE2;
    discard PIECE_TEXT STATE2 ];
  (* Seen parameter name, look for comma or closing parenthesis *)
  MatchState STATE14 "define" [
    goto_ PIECE_COMMA STATE15;
    discard PIECE_COMMENT STATE2;
    discard PIECE_EOF STATE99;
    discard PIECE_EOL STATE1;
    open_ "endmacro" STATE31;
    discard PIECE_IDENTIFIER STATE2;
    goto_ PIECE_PARCLOSE STATE18;
    discard PIECE_PAROPEN STATE2;
    stay PIECE_SPACES;
    discard PIECE_STRING STATE2;
    discard PIECE_TEXT STATE2 ];
  (* Seen comma, find another parameter *)
  MatchState STATE15 "define" [
    discard PIECE_COMMA STATE2;
    discard PIECE_COMMENT STATE2;
    discard PIECE_EOF STATE99;
    discard PIECE_EOL STATE1;
    discard_word "define" STATE2;
    discard_word "include" STATE2;
    open_ "endmacro" STATE31;
    store_ PIECE_IDENTIFIER "parameter" STATE14;
    discard PIECE_PARCLOSE STATE2;
    discard PIECE_PAROPEN STATE2;
    stay PIECE_SPACES;
    discard PIECE_STRING STATE2;
    discard PIECE_TEXT STATE2 ];
  (* Found a macro define with parentheses *)
  FinishState STATE18 "define" (Some STATE2);
  (* Seen 'include', find a filename string *)
  MatchState STATE21 "include" [
    discard PIECE_COMMA STATE2;
    discard PIECE_COMMENT STATE2;
    discard PIECE_EOF STATE99;
    discard PIECE_EOL STATE1;
    open_ "endmacro" STATE31;
    discard PIECE_IDENTIFIER STATE2;
    discard PIECE_PARCLOSE STATE2;
    discard PIECE_PAROPEN STATE2;
    stay PIECE_SPACES;
    store_ PIECE_STRING "filename" STATE22;
    discard PIECE_TEXT STATE2 ];
  (* Seen a filename string, now an eol/eof; the EOF is forced out with 'send' *)
  MatchState STATE22 "include" [
    discard PIECE_COMMA STATE2;
    discard PIECE_COMMENT STATE2;
    mkEdge PIECE_EOF None (Some STATE29) (Some "send") None;
    goto_ PIECE_EOL STATE28;
    open_ "endmacro" STATE31;
    discard PIECE_IDENTIFIER STATE2;
    discard PIECE_PARCLOSE STATE2;
    discard PIECE_PAROPEN STATE2;
    stay PIECE_SPACES;
    discard PIECE_STRING STATE2;
    discard PIECE_TEXT STATE2 ];
  (* include + filename + eol found. *)
  FinishState STATE28 "include" (Some STATE1);
  (* include + filename + eof found. *)
  FinishState STATE29 "include" (Some STATE99);
  (* Done! *)
  FinishState STATE99 "none" None ].

(** *** State machine execution *)

Definition is_MatchState (s : State) : bool :=
  match s with MatchState _ _ _ => true | FinishState _ _ _ => false end.

(** The first loop of [setup_states]: the table of states by number. *)
Fixpoint collect_states (states : list State) (available : gmap nat State)
  : Res (gmap nat State) :=
  match states with
  | [] => Ok available
  | s :: states' =>
      match available !! state_num s with
      | Some _ =>
          Err (AssertionError ("State " +:+ pretty (state_num s)
                               +:+ " is defined more than once"))
      | None => collect_states states' (<[state_num s := s]> available)
      end
  end.

(** The kinds covered by the edges without a literal text. *)
Definition piece_map (edges : list Edge) : gset nat :=
  let kind_index (k : PieceKind) : nat :=
    match k with
    | PIECE_COMMA => 0 | PIECE_COMMENT => 1 | PIECE_EOF => 2 | PIECE_EOL => 3
    | PIECE_IDENTIFIER => 4 | PIECE_PARCLOSE => 5 | PIECE_PAROPEN => 6
    | PIECE_SPACES => 7 | PIECE_STRING => 8 | PIECE_TEXT => 9
    end in
  list_to_set (kind_index ∘ edge_kind <$> filter (λ e, edge_text e = None) edges).

Definition new_sequence_action (a : option string) : bool :=
  bool_decide (a = Some "define") || bool_decide (a = Some "endmacro")
  || bool_decide (a = Some "include").

(** The checks on one edge of a state expecting [expected]; [next_expected]
    is the sequence expected by the state the edge leads to. *)
Definition check_edge (num : nat) (expected : string) (edge : Edge)
    (available : gmap nat State) : Res unit :=
  let next_expected :=
    match edge_goto edge with
    | None => Some expected
    | Some g => expected_sequence <$> available !! g
    end in
  match next_expected with
  | None => Err (KeyError (pretty (default 0 (edge_goto edge))))
  | Some next_expected =>
      let action := edge_sequence_action edge in
      if new_sequence_action action then
        if bool_decide (Some next_expected = action) then Ok ()
        else Err (AssertionError ("State " +:+ pretty num +:+ " makes incorrect new sequence"))
      else if bool_decide (action = None) || bool_decide (action = Some "send") then
        if bool_decide (next_expected = expected) then Ok ()
        else Err (AssertionError ("State " +:+ pretty num
                                  +:+ " passes wrong sequence to next state"))
      else if bool_decide (action = Some "discard") then
        if bool_decide (next_expected = "none") then Ok ()
        else Err (AssertionError ("State " +:+ pretty num
                                  +:+ " incorrectly discards for next state"))
      else Err (AssertionError ("State " +:+ pretty num +:+ ", action "
                                +:+ default EmptyString action))
  end.

Fixpoint check_all {A} (f : A → Res unit) (l : list A) : Res unit :=
  match l with
  | [] => Ok ()
  | x :: l' => match f x with Ok _ => check_all f l' | Err e => Err e end
  end.

(** The second loop of [setup_states], for one state.  The branch for a
    state whose [expected_sequence] is [None] never runs: every state of the
    table names its expected sequence. *)
Definition check_state (available : gmap nat State) (s : State) : Res unit :=
  match s with
  | MatchState num expected edges =>
      match check_all (λ edge : Edge,
              match edge_goto edge with
              | Some g =>
                  if bool_decide (is_Some (available !! g)) then Ok ()
                  else Err (AssertionError ("Goto " +:+ pretty g +:+ " in state "
                                            +:+ pretty num +:+ " does not exist"))
              | None => Ok ()
              end) edges with
      | Err e => Err e
      | Ok _ =>
          if bool_decide (size (piece_map edges) = NUM_PIECES) then
            check_all (λ edge, check_edge num expected edge available) edges
          else Err (AssertionError ("Edges do not cover all options in state "
                                    +:+ pretty num +:+ "."))
      end
  | FinishState num expected goto =>
      match goto with
      | None => Ok ()
      | Some g =>
          match available !! g with
          | None => Err (AssertionError ("Successor of finish state " +:+ pretty num
                                         +:+ " does not exist"))
          | Some next_state =>
              if bool_decide (expected_sequence next_state = "none") then Ok ()
              else Err (AssertionError ("Finish state " +:+ pretty num
                                        +:+ " cannot finish due to next state"))
          end
      end
  end.

Definition setup_states (states : list State) : Res (gmap nat State) :=
  match collect_states states ∅ with
  | Err e => Err e
  | Ok available =>
      match check_all (check_state available) states with
      | Err e => Err e
      | Ok _ => Ok available
      end
  end.

Definition verify_expected_sequence (sequence : option Sequence) (expected : string)
  : bool :=
  match sequence with
  | None => bool_decide (expected = "none")
  | Some (SeqDefine _) => bool_decide (expected = "define")
  | Some (SeqInclude _) => bool_decide (expected = "include")
  | Some (SeqEndMacro _) => bool_decide (expected = "endmacro")
  end.

(** [edge.kind == piece.kind and edge.text is None or edge.text == piece.get_text()]:
    [and] binds tighter than [or]. *)
Definition edge_matches (edge : Edge) (piece : Piece) : bool :=
  (bool_decide (edge_kind edge = piece_kind piece) && bool_decide (edge_text edge = None))
  || bool_decide (edge_text edge = Some (get_text piece)).

(** The first matching edge. *)
Definition select_edge (edges : list Edge) (piece : Piece) : option Edge :=
  List.find (λ edge, edge_matches edge piece) edges.

(** What the recognizer yields: plain pieces and finished sequences. *)
Inductive Mixed := MPiece (p : Piece) | MSeq (s : Sequence).

Global Instance Mixed_eq_dec : EqDecision Mixed.
Proof. solve_decision. Defined.

Definition flush (sequence : option Sequence) : list Mixed :=
  match sequence with
  | Some s => MPiece <$> storeds s
  | None => []
  end.

(** The sequence action of an edge: the pieces flushed, the new sequence
    and [force_send]. *)
Definition sequence_action (action : option string) (sequence : option Sequence)
  : Res (list Mixed * option Sequence * bool) :=
  match action with
  | None => Ok ([], sequence, false)
  | Some a =>
      if bool_decide (a = "define") then
        Ok (flush sequence, Some (SeqDefine new_DefinePiece), false)
      else if bool_decide (a = "include") then
        Ok (flush sequence, Some (SeqInclude new_IncludePiece), false)
      else if bool_decide (a = "endmacro") then
        Ok (flush sequence, Some (SeqEndMacro new_EndMacroPiece), false)
      else if bool_decide (a = "discard") then
        Ok (flush sequence, None, false)
      else if bool_decide (a = "send") then
        Ok ([], sequence, true)
      else Err (AssertionError ("Unknown edge action " +:+ a +:+ " found"))
  end.

(** One round of a [MatchState] on [piece]: what is yielded, the new
    sequence and the new state. *)
Definition match_step (available : gmap nat State) (cur_state : State)
    (edges : list Edge) (sequence : option Sequence) (piece : Piece)
  : list Mixed * Res (option Sequence * State) :=
  match select_edge edges piece with
  | None => ([], Err (AssertionError EmptyString))
  | Some sel_edge =>
      match sequence_action (edge_sequence_action sel_edge) sequence with
      | Err e => ([], Err e)
      | Ok (flushed, sequence, force_send) =>
          (* Ensure no piece gets lost by either storing it or by sending it. *)
          let '(sequence, sent) :=
            match force_send, sequence with
            | false, Some s => (Some (storeds_append s piece), [])
            | _, _ => (sequence, [MPiece piece])
            end in
          let yielded := flushed ++ sent in
          (* Perform additional store action if requested. *)
          let stored :=
            match edge_store sel_edge with
            | None => Ok sequence
            | Some where_ =>
                match sequence with
                | None => Err (AttributeError "'NoneType' object has no attribute 'store'")
                | Some s => match store s piece where_ with
                            | Ok s' => Ok (Some s')
                            | Err e => Err e
                            end
                end
            end in
          match stored with
          | Err e => (yielded, Err e)
          | Ok sequence =>
              match edge_goto sel_edge with
              | None => (yielded, Ok (sequence, cur_state))
              | Some g =>
                  match available !! g with
                  | Some next_state => (yielded, Ok (sequence, next_state))
                  | None => (yielded, Err (KeyError (pretty g)))
                  end
              end
          end
      end
  end.

(** The [while cur_state is not None] loop.  A [StopIteration] raised by
    [next(stream)] inside the generator ends the generator, which is the
    generator protocol py-xpd relies on for its normal end (from Python 3.7
    on the interpreter reports it as a RuntimeError instead, after every
    piece has been delivered). *)
Fixpoint match_loop (fuel : nat) (available : gmap nat State)
    (cur_state : option State) (sequence : option Sequence) (stream : list Piece)
  : list Mixed * Ending :=
  match cur_state with
  | None =>
      match stream with
      | [] => ([], Returned)
      | _ :: _ => ([], Raised (AssertionError "Sequence detection ended too early!"))
      end
  | Some state =>
      match fuel with
      | 0 => ([], Raised OutOfFuel)
      | S fuel' =>
          if verify_expected_sequence sequence (expected_sequence state) then
            match state with
            | MatchState _ _ edges =>
                match stream with
                | [] => ([], Returned)
                | piece :: stream' =>
                    match match_step available state edges sequence piece with
                    | (yielded, Err e) => (yielded, Raised e)
                    | (yielded, Ok (sequence', next_state)) =>
                        let '(rest, ending) :=
                          match_loop fuel' available (Some next_state) sequence' stream' in
                        (yielded ++ rest, ending)
                    end
                end
            | FinishState _ _ goto =>
                let yielded :=
                  match sequence with Some s => [MSeq s] | None => [] end in
                match goto with
                | None =>
                    let '(rest, ending) := match_loop fuel' available None None stream in
                    (yielded ++ rest, ending)
                | Some g =>
                    match available !! g with
                    | Some next_state =>
                        let '(rest, ending) :=
                          match_loop fuel' available (Some next_state) None stream in
                        (yielded ++ rest, ending)
                    | None => (yielded, Raised (KeyError (pretty g)))
                    end
                end
            end
          else ([], Raised (AssertionError EmptyString))
      end
  end.

(** [match_sequence(stream)]: every round takes a piece or leaves a finish
    state, and no more than two finish states follow one another. *)
Definition match_sequence (stream : list Piece) : list Mixed * Ending :=
  match setup_states STATES with
  | Err e => ([], Raised e)
  | Ok available =>
      match available !! STATE1 with
      | None => ([], Raised (KeyError (pretty STATE1)))
      | Some start =>
          match_loop (3 * length stream + 3) available (Some start) None stream
      end
  end.

(** *** Reading a file: includes and macro definitions *)

(** The macro table; a definition is stored under its [name] attribute. *)
Abbreviation MacroTable := (gmap (option string) DefinePiece).

(** The files the program can open, and its standard input. *)
Record Env := mkEnv {
  env_files : gmap string string;
  env_stdin : string
}.

Definition open_input (env : Env) (fname : option string) : option string :=
  match fname with
  | None => Some (env_stdin env)
  | Some f => env_files env !! f
  end.

(** What happens while the generator [read_file] runs: a piece is yielded,
    a definition is entered in the shared macro table, or a warning is
    printed. *)
Inductive Event :=
| EvPiece (p : Piece)
| EvDefine (d : DefinePiece)
| EvPrint (line : string).

(** [report_error] asserts that every line it is given is a [Position]. *)
Definition positions (l : list (option Position)) : Res (list Position) :=
  match mapM id l with
  | Some ps => Ok ps
  | None => Err (AssertionError EmptyString)
  end.

Definition fatal (l : list (option Position)) (mesg : string) : Exn :=
  match positions l with
  | Ok ps => fatal_report ps mesg
  | Err e => e
  end.

Definition is_blank (p : Piece) : bool :=
  bool_decide (piece_kind p = PIECE_SPACES) || bool_decide (piece_kind p = PIECE_EOL).

(** [while len(l) > 0 and l[-1].kind in (SPACES, EOL): del l[-1]] *)
Fixpoint strip_trailing (l : list Piece) : list Piece :=
  match l with
  | [] => []
  | p :: l' =>
      match strip_trailing l' with
      | [] => if is_blank p then [] else [p]
      | kept => p :: kept
      end
  end.

Definition with_content (d : DefinePiece) (content : list Piece) : DefinePiece :=
  mkDefinePiece (def_pos d) (def_name d) (def_parameters d) content (def_storeds d).

Section Harvest.

Context (unicode_word : ascii → bool).
Context (env : Env).

(** The body of the [for mixed in match_sequence(...)] loop of [read_file];
    [include] stands for the recursive call. *)
Fixpoint read_items
    (include : option string → MacroTable → list IncludePiece →
               list Event * Ending * MacroTable)
    (items : list Mixed) (ending : Ending)
    (current_def : option DefinePiece) (macros : MacroTable)
    (includes : list IncludePiece)
  : list Event * Ending * MacroTable :=
  match items with
  | [] => ([], ending, macros)
  | MSeq (SeqDefine mixed) :: items' =>
      match current_def with
      | Some cur =>
          ([], Raised (fatal [def_pos mixed; def_pos cur]
                         "Cannot define a nested macro, perhaps a missing 'endmacro'?"),
           macros)
      | None =>
          (* Warn if a definition gets redefined. *)
          let warned :=
            match macros !! def_name mixed with
            | Some prev_def =>
                match positions [def_pos mixed; def_pos prev_def] with
                | Ok ps =>
                    Ok (from_option (λ line, [EvPrint line]) []
                          (report_error ps
                             ("Macro '" +:+ default EmptyString (def_name mixed)
                              +:+ "' is already defined, overwriting the previous definirion!")
                             TypeWarning false).1)
                | Err e => Err e
                end
            | None => Ok []
            end in
          match warned with
          | Err e => ([], Raised e, macros)
          | Ok warning =>
              if bool_decide (length (def_content mixed) = 0) then
                let '(rest, ending', macros') :=
                  read_items include items' ending (Some mixed) macros includes in
                (warning ++ rest, ending', macros')
              else (warning, Raised (AssertionError EmptyString), macros)
          end
      end
  | MSeq (SeqInclude mixed) :: items' =>
      match current_def with
      | Some _ =>
          ([], Raised (fatal [inc_pos mixed] "Cannot include a file in a macro definition"),
           macros)
      | None =>
          if MAX_INCLUDE_LEVEL <=? length includes then
            ([], Raised (fatal [inc_pos mixed] "Too many includes (infinite recursion?)"),
             macros)
          else
            match include (inc_filename mixed) macros (includes ++ [mixed]) with
            | (spliced, Returned, macros') =>
                let '(rest, ending', macros'') :=
                  read_items include items' ending None macros' includes in
                (spliced ++ rest, ending', macros'')
            | (spliced, Raised e, macros') => (spliced, Raised e, macros')
            end
      end
  | MSeq (SeqEndMacro mixed) :: items' =>
      match current_def with
      | None =>
          ([], Raised (fatal [end_pos mixed]
                         "Found 'endmacro' keyword without matching 'define'"),
           macros)
      | Some cur =>
          (* Strip 'trailing' whitespace from the definition. *)
          let cur := with_content cur (strip_trailing (def_content cur)) in
          let '(rest, ending', macros') :=
            read_items include items' ending None (<[def_name cur := cur]> macros)
              includes in
          (EvDefine cur :: rest, ending', macros')
      end
  | MPiece mixed :: items' =>
      match current_def with
      | None =>
          (* Outside a macro definition, pass the piece on. *)
          let '(rest, ending', macros') :=
            read_items include items' ending None macros includes in
          (EvPiece mixed :: rest, ending', macros')
      | Some cur =>
          (* Inside a macro definition, piece must be saved. *)
          if is_blank mixed && bool_decide (length (def_content cur) = 0) then
            read_items include items' ending current_def macros includes
          else if bool_decide (piece_kind mixed = PIECE_EOF) then
            ([], Raised (fatal [Some (piece_pos mixed); def_pos cur]
                           ("Encountered end of file while reading a macro definition, "
                            +:+ "perhaps a missing 'endmacro'?")),
             macros)
          else
            read_items include items' ending
              (Some (with_content cur (def_content cur ++ [mixed]))) macros includes
      end
  end.

(** [read_file(fname, macro_definitions, includes)].  [fuel] bounds the
    depth of the recursion through includes, which the check against
    [MAX_INCLUDE_LEVEL] keeps below [MAX_INCLUDE_LEVEL + 1]. *)
Fixpoint read_file_rec (fuel : nat) (fname : option string) (macros : MacroTable)
    (includes : list IncludePiece) : list Event * Ending * MacroTable :=
  match fuel with
  | 0 => ([], Raised OutOfFuel, macros)
  | S fuel' =>
      if length includes <=? MAX_INCLUDE_LEVEL then
        match open_input env fname with
        | None => ([], Raised (FileNotFoundError fname), macros)
        | Some content =>
            match tokenize unicode_word fname content with
            | None => ([], Raised OutOfFuel, macros)
            | Some stream =>
                let '(items, ending) := match_sequence stream in
                read_items (read_file_rec fuel') items ending None macros includes
            end
        end
      else ([], Raised (AssertionError EmptyString), macros)
  end.

Definition read_file (fname : option string) (macros : MacroTable)
  : list Event * Ending * MacroTable :=
  read_file_rec (MAX_INCLUDE_LEVEL + 2) fname macros [].

End Harvest.

(** ** expand.py *)

Definition MAX_EXPAND_LEVEL : nat := 10.

(** The objects shared by the generators while the program runs: the macro
    table, which [read_file] fills while [expand_stream] reads it, and the
    lines printed so far. *)
Record Shared := mkShared {
  macro_definitions : MacroTable;
  console : list string
}.

(** The result of [getter.get()]: a piece, [None], or an exception. *)
Inductive GetResult (G : Type) :=
| Got (piece : Piece) (g : G) (sh : Shared)
| NoMore (g : G) (sh : Shared)
| GetErr (e : Exn).
Global Arguments Got {G} piece g sh.
Global Arguments NoMore {G} g sh.
Global Arguments GetErr {G} e.

(** The interface [StreamGetter] and [ListGetter] share. *)
Class PieceGetter (G : Type) := get : G → Shared → GetResult G.
Global Hint Mode PieceGetter ! : typeclass_instances.

(** [StreamGetter]: [stream] is the generator, given by what is still to
    happen in it and by the way it ends, or [None] once it is exhausted. *)
Record StreamGetter := mkStreamGetter {
  stream : option (list Event * Ending)
}.

(** [next(self.stream)]: run the generator up to its next [yield]. *)
Fixpoint stream_next (events : list Event) (ending : Ending) (sh : Shared)
  : GetResult StreamGetter :=
  match events with
  | [] =>
      match ending with
      | Returned => NoMore (mkStreamGetter None) sh
      | Raised e => GetErr e
      end
  | EvPiece p :: events' => Got p (mkStreamGetter (Some (events', ending))) sh
  | EvDefine d :: events' =>
      stream_next events' ending
        (mkShared (<[def_name d := d]> (macro_definitions sh)) (console sh))
  | EvPrint line :: events' =>
      stream_next events' ending
        (mkShared (macro_definitions sh) (console sh ++ [line]))
  end.

Global Instance StreamGetter_get : PieceGetter StreamGetter := λ g sh,
  match stream g with
  | None => GetErr (TypeError "'NoneType' object is not an iterator")
  | Some (events, ending) => stream_next events ending sh
  end.

(** [ListGetter]: [index] starts at -1 and becomes [None] at the end. *)
Record ListGetter := mkListGetter {
  elements : list Piece;
  index : option Z
}.

Definition new_ListGetter (elements : list Piece) : ListGetter :=
  mkListGetter elements (Some (-1)%Z).

Global Instance ListGetter_get : PieceGetter ListGetter := λ g sh,
  match index g with
  | None => GetErr (TypeError "unsupported operand type(s) for +: 'NoneType' and 'int'")
  | Some i =>
      let i := (i + 1)%Z in
      if bool_decide (i = Z.of_nat (length (elements g))) then
        NoMore (mkListGetter (elements g) None) sh
      else
        match (if bool_decide (0 ≤ i)%Z then elements g !! Z.to_nat i
               else if bool_decide (Z.to_nat (- i) ≤ length (elements g))
               then elements g !! (length (elements g) - Z.to_nat (- i))
               else None) with
        | Some piece => Got piece (mkListGetter (elements g) (Some i)) sh
        | None => GetErr (IndexError "list index out of range")
        end
  end.

(** What [store_argument] returns: an error, or the argument, whether its
    outer parentheses were dropped, and the piece that ended it. *)
Inductive ArgResult :=
| ArgError (error : string)
| Argument (argpieces : list Piece) (stripped : bool) (piece : Piece).

Section ArgumentParsing.

Context {G : Type} `{!PieceGetter G}.

(** The loop of [store_til_matching_close]; [level] starts at 1.  The
    result is the error (if any) and the list [pieces] as extended. *)
Fixpoint store_til_matching_close_loop (fuel : nat) (level : nat) (g : G)
    (sh : Shared) (pieces : list Piece)
  : Res (option string * list Piece * G * Shared) :=
  if level =? 0 then Ok (None, pieces, g, sh)
  else
    match fuel with
    | 0 => Err OutOfFuel
    | S fuel' =>
        match get g sh with
        | GetErr e => Err e
        | NoMore g sh => Ok (Some "no-input", pieces, g, sh)
        | Got piece g sh =>
            if bool_decide (piece_kind piece = PIECE_EOF) then
              Ok (Some "eof", pieces, g, sh)
            else
              let pieces := pieces ++ [piece] in
              let level :=
                if bool_decide (piece_kind piece = PIECE_PAROPEN) then level + 1
                else if bool_decide (piece_kind piece = PIECE_PARCLOSE) then level - 1
                else level in
              store_til_matching_close_loop fuel' level g sh pieces
        end
    end.

Definition store_til_matching_close (fuel : nat) (g : G) (sh : Shared)
    (pieces : list Piece) : Res (option string * list Piece * G * Shared) :=
  store_til_matching_close_loop fuel 1 g sh pieces.

(** What [store_argument] does when a comma or closing parenthesis ends the
    argument. *)
Definition finish_argument (first_close : option nat) (argument : list Piece)
    (piece : Piece) : Res ArgResult :=
  (* End reached, strip unprotected trailing whitespace. *)
  let argument := strip_trailing argument in
  (* If argument had parentheses around the entire argument, drop them. *)
  match first_close with
  | None => Ok (Argument argument false piece)
  | Some first_close =>
      match argument with
      | [] => Err (IndexError "list index out of range")
      | first :: _ =>
          if bool_decide (piece_kind first = PIECE_PAROPEN)
             && bool_decide (length argument - 1 = first_close)
          then Ok (Argument (removelast (tail argument)) true piece)
          else Ok (Argument argument false piece)
      end
  end.

(** The loop of [store_argument]. *)
Fixpoint store_argument_loop (fuel : nat) (first_close : option nat)
    (strip_leading : bool) (argument : list Piece) (g : G) (sh : Shared)
  : Res (ArgResult * G * Shared) :=
  match fuel with
  | 0 => Err OutOfFuel
  | S fuel' =>
      match get g sh with
      | GetErr e => Err e
      | NoMore g sh => Ok (ArgError "no-input", g, sh)
      | Got piece g sh =>
          if bool_decide (piece_kind piece = PIECE_EOF) then Ok (ArgError "eof", g, sh)
          else if bool_decide (piece_kind piece = PIECE_COMMA)
                  || bool_decide (piece_kind piece = PIECE_PARCLOSE) then
            match finish_argument first_close argument piece with
            | Ok r => Ok (r, g, sh)
            | Err e => Err e
            end
          else
            (* Store pieces, while stripping leading unprotected whitespace. *)
            let '(argument, strip_leading) :=
              if negb strip_leading then (argument ++ [piece], strip_leading)
              else if negb (is_blank piece) then (argument ++ [piece], false)
              else (argument, strip_leading) in
            (* Nested parentheses, skip everything until matching closing parenthesis. *)
            if bool_decide (piece_kind piece = PIECE_PAROPEN) then
              match store_til_matching_close fuel' g sh argument with
              | Err e => Err e
              | Ok (Some error, _, g, sh) => Ok (ArgError error, g, sh)
              | Ok (None, argument, g, sh) =>
                  let first_close :=
                    match first_close with
                    | None => Some (length argument - 1)
                    | Some _ => first_close
                    end in
                  store_argument_loop fuel' first_close strip_leading argument g sh
              end
            else store_argument_loop fuel' first_close strip_leading argument g sh
      end
  end.

Definition store_argument (fuel : nat) (g : G) (sh : Shared)
  : Res (ArgResult * G * Shared) :=
  store_argument_loop fuel None true [] g sh.

(** The error reports of [find_arguments] read [macro_def.name] first. *)
Definition missing_parentheses (which : string) (call_pos : Position)
    (macro_def : option DefinePiece) : Exn :=
  match macro_def with
  | None => AttributeError "'NoneType' object has no attribute 'name'"
  | Some d =>
      fatal_report [call_pos]
        ("Missing " +:+ which +:+ " parentheses for macro call '"
         +:+ default "None" (def_name d) +:+ "'")
  end.

(** The first loop of [find_arguments]: find the opening parenthesis. *)
Fixpoint find_open (fuel : nat) (g : G) (call_pos : Position)
    (macro_def : option DefinePiece) (sh : Shared) : Res (G * Shared) :=
  match fuel with
  | 0 => Err OutOfFuel
  | S fuel' =>
      match get g sh with
      | GetErr e => Err e
      | NoMore _ _ => Err (missing_parentheses "open" call_pos macro_def)
      | Got piece g sh =>
          if bool_decide (piece_kind piece = PIECE_SPACES) then
            find_open fuel' g call_pos macro_def sh
          else if bool_decide (piece_kind piece ≠ PIECE_PAROPEN) then
            Err (missing_parentheses "open" call_pos macro_def)
          else Ok (g, sh)
      end
  end.

(** The second loop: arguments until the matching closing parenthesis. *)
Fixpoint collect_arguments (fuel : nat) (arguments : list (list Piece)) (g : G)
    (call_pos : Position) (macro_def : option DefinePiece) (sh : Shared)
  : Res (list (list Piece) * G * Shared) :=
  match fuel with
  | 0 => Err OutOfFuel
  | S fuel' =>
      match store_argument fuel' g sh with
      | Err e => Err e
      | Ok (ArgError _, _, _) => Err (missing_parentheses "closing" call_pos macro_def)
      | Ok (Argument argpieces stripped piece, g, sh) =>
          if bool_decide (piece_kind piece = PIECE_PARCLOSE) then
            if bool_decide (length arguments = 0)
               && bool_decide (length argpieces = 0) && negb stripped
            then Ok (arguments, g, sh)
            else Ok (arguments ++ [argpieces], g, sh)
          else if bool_decide (piece_kind piece = PIECE_COMMA) then
            collect_arguments fuel' (arguments ++ [argpieces]) g call_pos macro_def sh
          else Err (AssertionError EmptyString)
      end
  end.

Definition find_arguments (fuel : nat) (g : G) (call_pos : Position)
    (macro_def : option DefinePiece) (sh : Shared)
  : Res (list (list Piece) * G * Shared) :=
  match find_open fuel g call_pos macro_def sh with
  | Err e => Err e
  | Ok (g, sh) => collect_arguments fuel [] g call_pos macro_def sh
  end.

End ArgumentParsing.

(** An entry of [expand_nesting]: the call and the definition expanded. *)
Definition Frame : Type := Piece * DefinePiece.

Definition call_sites (expand_nesting : list Frame) : list Position :=
  (λ frame : Frame, piece_pos frame.1) <$> expand_nesting.

(** [''.join(p.get_text() for p in pieces)] *)
Definition concat_text (pieces : list Piece) : string :=
  foldr (λ p acc, get_text p +:+ acc) EmptyString pieces.

(** The loop that fills [arg_table]; [expand] stands for the call of
    [expand_stream] on a [ListGetter]. *)
Fixpoint expand_arguments
    (expand : ListGetter → list Frame → Shared →
              list Piece * Res (ListGetter * list Frame * Shared))
    (pairs : list (Piece * list Piece)) (arg_table : gmap string (list Piece))
    (expand_nesting : list Frame) (sh : Shared)
  : Res (gmap string (list Piece) * list Frame * Shared) :=
  match pairs with
  | [] => Ok (arg_table, expand_nesting, sh)
  | (argpiece, argval) :: pairs' =>
      let argname := get_text argpiece in
      let arg_getter := new_ListGetter argval in
      if bool_decide (is_Some (arg_table !! argname)) then Err (AssertionError EmptyString)
      else
        match expand arg_getter expand_nesting sh with
        | (_, Err e) => Err e
        | (expanded, Ok (_, expand_nesting, sh)) =>
            expand_arguments expand pairs' (<[argname := expanded]> arg_table)
              expand_nesting sh
        end
  end.

Definition arity_message (macro_def : DefinePiece) (found : nat) : string :=
  "Incorrect number of argument for expanding macro '"
  +:+ default "None" (def_name macro_def) +:+ "' (expected "
  +:+ pretty (length (def_parameters macro_def)) +:+ " found "
  +:+ pretty found +:+ " arguments)".

(** [report_error] has no parameter called [ordered_pos]; the call that
    reports too deep a nesting passes one, and Python raises this. *)
Definition ordered_pos_error : Exn :=
  TypeError "report_error() got an unexpected keyword argument 'ordered_pos'".

(** [expand_stream(getter, macro_definitions, parameter_values, expand_nesting)]:
    the pieces yielded and how the generator ends; when it returns, the
    getter, the frame stack and the shared objects as it leaves them.  Each
    round of the loop and each nested call takes one unit of [fuel]. *)
Fixpoint expand_stream (fuel : nat) {G : Type} {HG : PieceGetter G} (g : G)
    (parameter_values : gmap string (list Piece)) (expand_nesting : list Frame)
    (sh : Shared) {struct fuel}
  : list Piece * Res (G * list Frame * Shared) :=
  match fuel with
  | 0 => ([], Err OutOfFuel)
  | S fuel' =>
      let continue (yielded : list Piece) (g : G) (expand_nesting : list Frame)
                   (sh : Shared) :=
        let '(rest, r) := expand_stream fuel' g parameter_values expand_nesting sh in
        (yielded ++ rest, r) in
      match get g sh with
      | GetErr e => ([], Err e)
      | NoMore g sh => ([], Ok (g, expand_nesting, sh))
      | Got piece g sh =>
          if bool_decide (piece_kind piece ≠ PIECE_IDENTIFIER) then
            continue [piece] g expand_nesting sh
          else
            let name := get_text piece in
            match parameter_values !! name with
            | Some arg_value => continue arg_value g expand_nesting sh
            | None =>
                let macro_def := macro_definitions sh !! Some name in
                if bool_decide (macro_def = None) && bool_decide (name ≠ "glue") then
                  continue [piece] g expand_nesting sh
                else
                  (* Found a proper macro definition or magic 'glue'. *)
                  let macro_call := piece in
                  match find_arguments fuel' g (piece_pos macro_call) macro_def sh with
                  | Err e => ([], Err e)
                  | Ok (arguments, g, sh) =>
                      match macro_def with
                      | None =>
                          (* Magic glue! *)
                          let text := concat_text (concat arguments) in
                          continue [StrPiece PIECE_TEXT (piece_pos macro_call) text]
                            g expand_nesting sh
                      | Some macro_def =>
                          if bool_decide (length (def_parameters macro_def)
                                          ≠ length arguments) then
                            ([], Err (fatal [def_pos macro_def;
                                             Some (piece_pos macro_call)]
                                        (arity_message macro_def (length arguments))))
                          else
                            let expand_nesting := expand_nesting ++ [(macro_call, macro_def)] in
                            if MAX_EXPAND_LEVEL <? length expand_nesting then
                              ([], Err ordered_pos_error)
                            else
                              match expand_arguments
                                      (λ arg_getter nesting sh,
                                         expand_stream fuel' arg_getter
                                           parameter_values nesting sh)
                                      (zip (def_parameters macro_def) arguments)
                                      ∅ expand_nesting sh with
                              | Err e => ([], Err e)
                              | Ok (arg_table, expand_nesting, sh) =>
                                  match expand_stream fuel'
                                          (new_ListGetter (def_content macro_def))
                                          arg_table expand_nesting sh with
                                  | (yielded, Err e) => (yielded, Err e)
                                  | (yielded, Ok (_, expand_nesting, sh)) =>
                                      continue yielded g (removelast expand_nesting) sh
                                  end
                              end
                      end
                  end
            end
      end
  end.

(** ** main.py *)

Record CommandLineArguments := mkCommandLineArguments {
  in_fname : option string;
  out_fname : option string;
  debug_tokenize : bool;
  debug_matched : bool
}.

(** What a run of the program leaves behind.  [written] is the text written
    to [target] (the file OUT, or standard output when absent); [printed]
    holds the warnings printed on the way. *)
Inductive Output :=
| TokenTrace (pieces : list Piece)
| MatchTrace (items : list Mixed)
| Expanded (written : string) (target : option string) (printed : list string).

Inductive Exit :=
| ExitNormally
| ExitHelp
| Uncaught (e : Exn).

(** The loop over the options of [process_commandline], after [getopt]. *)
Fixpoint scan_options (opts : list (string * string)) (get_help : bool)
    (cla : CommandLineArguments) : Res (bool * CommandLineArguments) :=
  match opts with
  | [] => Ok (get_help, cla)
  | (opt, val) :: opts' =>
      if bool_decide (opt = "-h") || bool_decide (opt = "--help") then
        scan_options opts' true cla
      else if bool_decide (opt = "-o") || bool_decide (opt = "--output") then
        scan_options opts' get_help
          (mkCommandLineArguments (in_fname cla) (Some val) (debug_tokenize cla)
             (debug_matched cla))
      else if bool_decide (opt = "--debug-tokenize") then
        scan_options opts' get_help
          (mkCommandLineArguments (in_fname cla) (out_fname cla) true (debug_matched cla))
      else if bool_decide (opt = "--debug-matched") then
        scan_options opts' get_help
          (mkCommandLineArguments (in_fname cla) (out_fname cla) (debug_tokenize cla) true)
      else Err (AssertionError ("Unknown option '" +:+ opt +:+ "' encountered"))
  end.

(** [process_commandline], from the options and arguments [getopt] found.
    The [return cla] sits inside [if len(args) == 1]: without a file
    argument the function returns [None]. *)
Definition process_commandline (opts : list (string * string)) (args : list string)
  : Exit + option CommandLineArguments :=
  match scan_options opts false (mkCommandLineArguments None None false false) with
  | Err e => inl (Uncaught e)
  | Ok (get_help, cla) =>
      if get_help then inl ExitHelp
      else if 1 <? length args then
        inl (Uncaught (fatal_report []
               ("At most one file may be given for processing, found "
                +:+ pretty (length args))))
      else
        match args with
        | [file] =>
            inr (Some (mkCommandLineArguments (Some file) (out_fname cla)
                         (debug_tokenize cla) (debug_matched cla)))
        | _ => inr None
        end
  end.

Section Main.

Context (unicode_word : ascii → bool).
Context (env : Env).

Definition exit_of (ending : Ending) : Exit :=
  match ending with
  | Returned => ExitNormally
  | Raised e => Uncaught e
  end.

(** The text of the pieces written: every piece but those of kind EOF. *)
Definition written_text (pieces : list Piece) : string :=
  concat_text (filter (λ piece, piece_kind piece ≠ PIECE_EOF) pieces).

(** [run()], given what [process_commandline] returned.  [fuel] bounds the
    rounds of the expander. *)
Definition run_with (fuel : nat) (cla : option CommandLineArguments)
  : option Output * Exit :=
  match cla with
  | None => (None, Uncaught (AttributeError
                               "'NoneType' object has no attribute 'debug_tokenize'"))
  | Some cla =>
      if debug_tokenize cla then
        match open_input env (in_fname cla) with
        | None => (None, Uncaught (FileNotFoundError (in_fname cla)))
        | Some content =>
            match tokenize unicode_word (in_fname cla) content with
            | Some pieces => (Some (TokenTrace pieces), ExitNormally)
            | None => (None, Uncaught OutOfFuel)
            end
        end
      else if debug_matched cla then
        match open_input env (in_fname cla) with
        | None => (None, Uncaught (FileNotFoundError (in_fname cla)))
        | Some content =>
            match tokenize unicode_word (in_fname cla) content with
            | Some pieces =>
                let '(items, ending) := match_sequence pieces in
                (Some (MatchTrace items), exit_of ending)
            | None => (None, Uncaught OutOfFuel)
            end
        end
      else
        let '(events, ending, _) := read_file unicode_word env (in_fname cla) ∅ in
        let getter := mkStreamGetter (Some (events, ending)) in
        match expand_stream fuel getter ∅ [] (mkShared ∅ []) with
        | (pieces, Ok (_, _, sh)) =>
            (Some (Expanded (written_text pieces) (out_fname cla) (console sh)),
             ExitNormally)
        | (pieces, Err e) =>
            (Some (Expanded (written_text pieces) (out_fname cla) []), Uncaught e)
        end
  end.

Definition run (fuel : nat) (opts : list (string * string)) (args : list string)
  : option Output * Exit :=
  match process_commandline opts args with
  | inl exit => (None, exit)
  | inr cla => run_with fuel cla
  end.

End Main.

(** * Vocabulary of the properties *)

Section WithWordClass.

(** The class of word characters outside ASCII, as in the lexer. *)
Context (unicode_word : ascii → bool).

(** What the main loop of the lexer relies on for a match of the entry
    [m] between the indices [st] and [en]. *)
Definition match_facts (line : string) (m : Matcher) (st en : nat) : Prop :=
  match m with
  | ByPattern SPACES_PAT =>
      ∀ k, st ≤ k < en → ∃ c, String.get k line = Some c ∧ is_space_tab c = true
  | ByPattern STRING_PAT =>
      String.get st line = Some ch_dquote ∧ String.get (en - 1) line = Some ch_dquote
  | ByPattern IDENTIFIER_PAT =>
      ∀ c, String.get en line = Some c → is_ident_char c = false
  | ByLiteral lit =>
      String.substring st (String.length lit) line = lit ∧ en = st + String.length lit
  end.

(** The candidate kept by [find_best] is a match of one of the entries. *)
Definition best_ok (line : string) (col : nat)
    (best : option ((Matcher * PieceKind) * nat * nat)) : Prop :=
  match best with
  | None => True
  | Some (e, st, en) =>
      e ∈ entries ∧ entry_search unicode_word e.1 line col = Some (st, en)
  end.

(** A comment piece ends behind a comment terminator or before the newline. *)
Definition ends_comment (line : string) (col' : nat) : Prop :=
  (∃ i, col' = i + 2 ∧ String.substring i 2 line = "*/")
  ∨ col' = end_before_newline line.

(** The four shapes of a round: the pieces it yields and the column it
    reaches. *)
Inductive step_shape (fname : option string) (lineno : nat) (line : string)
    (col : nat) : list Piece → nat → Prop :=
| shape_newline :
    String.get col line = Some ch_newline →
    step_shape fname lineno line col
      [StrPiece PIECE_EOL (at_column lineno fname col) (String ch_newline EmptyString)]
      (col + 1)
| shape_in_comment col' :
    col < col' ≤ String.length line →
    ends_comment line col' →
    step_shape fname lineno line col
      [SubstrPiece PIECE_COMMENT (at_column lineno fname col) (col' - col) line] col'
| shape_text :
    String.get col line ≠ Some ch_newline →
    find_best unicode_word entries line col None = None →
    step_shape fname lineno line col
      [SubstrPiece PIECE_TEXT (at_column lineno fname col)
         (end_before_newline line - col) line]
      (end_before_newline line)
| shape_match best bs be k col' :
    String.get col line ≠ Some ch_newline →
    find_best unicode_word entries line col None = Some (best, bs, be) →
    best ∈ entries →
    entry_search unicode_word best.1 line col = Some (bs, be) →
    (k = best.2 ∧ col' = be ∧ best.1 ≠ ByLiteral "/*" ∧ best.1 ≠ ByLiteral "//")
    ∨ (k = PIECE_COMMENT ∧ bs < col' ≤ String.length line ∧ ends_comment line col') →
    step_shape fname lineno line col
      ((if col <? bs
        then [SubstrPiece PIECE_TEXT (at_column lineno fname col) (bs - col) line]
        else [])
       ++ [SubstrPiece k (at_column lineno fname bs) (col' - bs) line])
      col'.

(** The condition under which the identifier pattern can start at [col]
    whenever a letter or underscore stands there. *)
Definition boundary_ok (line : string) (col : nat) : Prop :=
  col = 0
  ∨ (∃ c, String.get (col - 1) line = Some c ∧ is_word unicode_word c = false)
  ∨ (∀ c, String.get col line = Some c → is_ident_start c = false).

(** The kinds whose edges come after the keyword edges in the recognizer. *)
Definition plain_kind (k : PieceKind) : bool :=
  bool_decide (k ∈ [PIECE_PARCLOSE; PIECE_PAROPEN; PIECE_SPACES; PIECE_STRING; PIECE_TEXT]).

(** A piece of the lexer is not an end-of-file piece, and the text of a
    parenthesis, whitespace, string or text piece does not start like an
    identifier. *)
Definition piece_ok (p : Piece) : Prop :=
  piece_kind p ≠ PIECE_EOF
  ∧ (plain_kind (piece_kind p) = true →
     ∀ c r, get_text p = String c r → is_ident_start c = false).

Definition concat_lines (lines : list string) : string :=
  foldr String.append EmptyString lines.

Definition eof_piece (fname : option string) (lineno : nat) : Piece :=
  StrPiece PIECE_EOF (mkPosition lineno fname (Some 0)) EOF_TEXT.

(** The match predicate as the specification words it: the kinds agree and,
    when the edge carries a literal text, so do the texts. *)
Definition edge_matches_spec (edge : Edge) (piece : Piece) : bool :=
  bool_decide (edge_kind edge = piece_kind piece)
  && match edge_text edge with
     | None => true
     | Some t => bool_decide (t = get_text piece)
     end.

Definition edges_of (s : State) : list Edge :=
  match s with MatchState _ _ edges => edges | FinishState _ _ _ => [] end.

(** Every edge with a literal text is an identifier edge, and the text
    starts like an identifier. *)
Definition keyword_edge (e : Edge) : bool :=
  match edge_text e with
  | None => true
  | Some t =>
      bool_decide (edge_kind e = PIECE_IDENTIFIER)
      && match t with String c _ => is_ident_start c | EmptyString => false end
  end.

(** The kinds whose edge comes first in every state. *)
Definition early_kind (k : PieceKind) : bool :=
  bool_decide (k ∈ [PIECE_COMMA; PIECE_COMMENT; PIECE_EOF; PIECE_EOL]).

(** What the recognizer needs of a piece, and every piece of the lexer
    provides. *)
Definition recognizable (p : Piece) : Prop :=
  early_kind (piece_kind p) = true
  ∨ piece_kind p = PIECE_IDENTIFIER
  ∨ (∀ c r, get_text p = String c r → is_ident_start c = false).

(** The state of the table with a given number. *)
Definition the_state (num : nat) : option State :=
  List.find (λ s, bool_decide (state_num s = num)) STATES.

Definition is_word_piece (w : string) (p : Piece) : bool :=
  bool_decide (piece_kind p = PIECE_IDENTIFIER) && bool_decide (get_text p = w).

(** Whether the next piece is still at the start of its line: only
    whitespace has been seen since the last newline. *)
Definition next_at_line_start (at_line_start : bool) (p : Piece) : bool :=
  match piece_kind p with
  | PIECE_EOL => true
  | PIECE_SPACES => at_line_start
  | _ => false
  end.

(** The input holds no directive: no [endmacro] word, and no [define] or
    [include] word at the start of a line. *)
Fixpoint directive_free (at_line_start : bool) (ps : list Piece) : bool :=
  match ps with
  | [] => true
  | p :: ps' =>
      negb (is_word_piece "endmacro" p)
      && negb (at_line_start && (is_word_piece "define" p || is_word_piece "include" p))
      && directive_free (next_at_line_start at_line_start p) ps'
  end.

(** The input holds no macro call when nothing is defined: no [glue] word. *)
Definition call_free (ps : list Piece) : bool :=
  forallb (λ p, negb (is_word_piece "glue" p)) ps.

(** The state with a given number (a terminal state if there is none). *)
Definition state_at (num : nat) : State :=
  default (FinishState 0 EmptyString None) (the_state num).

Definition line_state (at_line_start : bool) : State :=
  state_at (if at_line_start then STATE1 else STATE2).

(** Where the edge without action for a piece of kind [k] leads, from the
    state for the start of a line and from the state for the rest of it. *)
Definition plain_goto (at_line_start : bool) (k : PieceKind) : option nat :=
  match k with
  | PIECE_EOF => Some STATE99
  | PIECE_EOL => if at_line_start then None else Some STATE1
  | PIECE_SPACES => None
  | _ => if at_line_start then Some STATE2 else None
  end.

Definition text_is (w t : string) : bool := bool_decide (w = t).

Global Arguments text_is : simpl never.

Definition edge_fits (e : Edge) (k : PieceKind) (t : string) : bool :=
  bool_decide (edge_kind e = k)
  && match edge_text e with None => true | Some w => text_is w t end.

Section Pulls.

Context {G : Type} `{!PieceGetter G}.

(** [pulls g sh ps g' sh']: successive calls of [get] from [g] return the
    pieces [ps] and leave the getter as [g']. *)
Inductive pulls : G → Shared → list Piece → G → Shared → Prop :=
| pulls_nil g sh : pulls g sh [] g sh
| pulls_cons g sh p g1 sh1 ps g' sh' :
    get g sh = Got p g1 sh1 →
    pulls g1 sh1 ps g' sh' →
    pulls g sh (p :: ps) g' sh'.

End Pulls.

(** The nesting level after a piece. *)
Definition level_after (level : nat) (p : Piece) : nat :=
  if bool_decide (piece_kind p = PIECE_PAROPEN) then level + 1
  else if bool_decide (piece_kind p = PIECE_PARCLOSE) then level - 1
  else level.

(** The index in [ps] of the closing parenthesis that brings the nesting
    level, [level] before [ps], down to zero. *)
Fixpoint matching_close (level : nat) (ps : list Piece) : option nat :=
  match ps with
  | [] => None
  | p :: ps' =>
      if level_after level p =? 0 then Some 0
      else S <$> matching_close (level_after level p) ps'
  end.

(** [ps] ends with the closing parenthesis that matches, and with none
    before. *)
Definition closes_at_end (level : nat) (ps : list Piece) : Prop :=
  matching_close level ps = Some (length ps - 1).

(** The pieces left when the leading whitespace and newlines are dropped. *)
Fixpoint drop_leading (ps : list Piece) : list Piece :=
  match ps with
  | [] => []
  | p :: ps' => if is_blank p then drop_leading ps' else ps
  end.

(** The argument so far, extended by the pieces [more] pulled next. *)
Definition extend (argument more : list Piece) : list Piece :=
  match argument with
  | [] => drop_leading more
  | _ => argument ++ more
  end.

(** The first piece opens a parenthesis, and the parenthesis that closes
    it is the last piece. *)
Definition wrapped (raw : list Piece) : bool :=
  match raw with
  | [] => false
  | p :: rest =>
      bool_decide (piece_kind p = PIECE_PAROPEN)
      && bool_decide (matching_close 1 rest = Some (length rest - 1))
  end.

(** What the loop of [store_argument] maintains. *)
Record argument_state (first_close : option nat) (strip_leading : bool)
    (argument : list Piece) : Prop := {
  state_leading : strip_leading = true ↔ argument = [];
  state_no_group : first_close = None →
    ∀ p rest, argument = p :: rest → piece_kind p ≠ PIECE_PAROPEN;
  state_group : ∀ i, first_close = Some i →
    strip_trailing argument ≠ []
    ∧ ∀ p rest, argument = p :: rest → piece_kind p = PIECE_PAROPEN →
        1 ≤ i ∧ matching_close 1 rest = Some (i - 1)
}.

(** A call of [expand_stream] that returns leaves the frame stack as it
    found it. *)
Definition keeps_nesting {G : Type}
    (expand : G → list Frame → Shared → list Piece * Res (G * list Frame * Shared))
  : Prop :=
  ∀ g nesting sh yielded g' nesting' sh',
    expand g nesting sh = (yielded, Ok (g', nesting', sh')) → nesting' = nesting.

(** A regular-expression engine for which no character outside ASCII is a
    word character. *)
Definition ascii_words (c : ascii) : bool := false.

(** The program run on the file [input] with the given content. *)
Definition run_on (content : string) : option Output * Exit :=
  run ascii_words (mkEnv {[ "input" := content ]} EmptyString) 1000 [] ["input"].

(** Pieces of a call as they would stand on line 1, for examples. *)
Definition at_col (col : nat) : Position := mkPosition 1 None (Some col).

Definition word (col : nat) (text : string) : Piece :=
  StrPiece PIECE_IDENTIFIER (at_col col) text.

Definition paropen (col : nat) : Piece := StrPiece PIECE_PAROPEN (at_col col) "(".

Definition parclose (col : nat) : Piece := StrPiece PIECE_PARCLOSE (at_col col) ")".

Definition comma (col : nat) : Piece := StrPiece PIECE_COMMA (at_col col) ",".

Definition space (col : nat) : Piece := StrPiece PIECE_SPACES (at_col col) " ".

Definition nothing_shared : Shared := mkShared ∅ [].

Definition glue_call : list Piece :=
  [word 0 "glue"; paropen 4; word 5 "a"; comma 6; word 7 "b"; parclose 8].

Definition bracket_def : DefinePiece :=
  mkDefinePiece (Some (at_col 0)) (Some "glue") [word 12 "x"]
    [StrPiece PIECE_TEXT (at_col 15) "["; word 16 "x"; StrPiece PIECE_TEXT (at_col 17) "]"]
    [].

Definition glue_defined : Shared := mkShared {[ Some "glue" := bracket_def ]} [].

Definition call_of_glue : list Piece :=
  [word 0 "glue"; paropen 4; word 5 "a"; parclose 6].

(** The trigger of C6 as it was stated: the index of the first ParenClose of
    the argument. *)
Fixpoint first_parclose (ps : list Piece) : option nat :=
  match ps with
  | [] => None
  | p :: ps' =>
      if bool_decide (piece_kind p = PIECE_PARCLOSE) then Some 0
      else S <$> first_parclose ps'
  end.

Definition wrapped_by_first_close (raw : list Piece) : bool :=
  match raw with
  | [] => false
  | p :: _ =>
      bool_decide (piece_kind p = PIECE_PAROPEN)
      && bool_decide (first_parclose raw = Some (length raw - 1))
  end.

(** The argument [((a)b)]. *)
Definition nested_argument : list Piece :=
  [paropen 0; paropen 1; word 2 "a"; parclose 3; word 4 "b"; parclose 5].

(** The argument [ (a b) ] followed by a comma. *)
Definition wrapped_argument : list Piece :=
  [space 0; paropen 1; word 2 "a"; space 3; word 4 "b"; parclose 5; space 6; comma 7;
   word 8 "c"].

(** The call [ ( )] of a macro. *)
Definition empty_call : list Piece := [space 1; paropen 2; space 3; parclose 4; word 5 "z"].

(** A file without directives and calls. *)
Definition plain_text : string :=
  "redefine (x, glued) /* endmacro */ y" +:+ String ch_newline "  // define z".

(** The macro I, defined as [define I(x) x endmacro], and the call [I(a)]. *)
Definition identity_def : DefinePiece :=
  mkDefinePiece (Some (at_col 0)) (Some "I") [word 9 "x"] [word 12 "x"] [].

Definition identity_defined : Shared := mkShared {[ Some "I" := identity_def ]} [].

Definition identity_call : list Piece :=
  [word 0 "I"; paropen 1; word 2 "a"; parclose 3].

(** * Properties *)

(** ** Strings *)

Lemma app_cons (a : ascii) (x y : string) : String a x +:+ y = String a (x +:+ y).
Proof. reflexivity. Qed.

Lemma app_empty_l (x : string) : EmptyString +:+ x = x.
Proof. reflexivity. Qed.

Lemma app_empty_r (x : string) : x +:+ EmptyString = x.
Proof. induction x as [|a x IH]; [done|]. by rewrite app_cons, IH. Qed.

Lemma app_assoc_s (x y z : string) : (x +:+ y) +:+ z = x +:+ (y +:+ z).
Proof. induction x as [|a x IH]; [done|]. by rewrite !app_cons, IH. Qed.

Lemma length_app_s (x y : string) :
  String.length (x +:+ y) = String.length x + String.length y.
Proof. induction x as [|a x IH]; [done|]. rewrite app_cons. simpl. by rewrite IH. Qed.

Lemma substring_nothing (s : string) (c : nat) : String.substring c 0 s = EmptyString.
Proof. revert c. induction s as [|a s IH]; intros [|c]; simpl; auto. Qed.

Lemma substring_empty (c n : nat) : String.substring c n EmptyString = EmptyString.
Proof. destruct c, n; reflexivity. Qed.

Lemma substring_whole (s : string) : String.substring 0 (String.length s) s = s.
Proof. induction s as [|a s IH]; simpl; [done|]. by rewrite IH. Qed.

(** Two adjacent slices make one slice. *)
Lemma substring_split (s : string) (c n m : nat) :
  String.substring c n s +:+ String.substring (c + n) m s = String.substring c (n + m) s.
Proof.
  revert c n. induction s as [|a s IH]; intros c n.
  - by rewrite !substring_empty.
  - destruct c as [|c]; simpl.
    + destruct n as [|n]; simpl; [done|].
      rewrite app_cons. f_equal. apply (IH 0).
    + apply IH.
Qed.

Lemma get_lt (s : string) (i : nat) (c : ascii) :
  String.get i s = Some c → i < String.length s.
Proof.
  revert i. induction s as [|a s IH]; intros [|i]; simpl; try done; [lia|].
  intros ?%IH. lia.
Qed.

Lemma get_ge (s : string) (i : nat) :
  String.length s ≤ i → String.get i s = None.
Proof.
  revert i. induction s as [|a s IH]; intros [|i]; simpl; try done; [lia|].
  intros ?. apply IH. lia.
Qed.

Lemma get_is_Some (s : string) (i : nat) :
  i < String.length s → ∃ c, String.get i s = Some c.
Proof.
  revert i. induction s as [|a s IH]; intros [|i]; simpl; try lia; eauto.
  intros ?. apply IH. lia.
Qed.

(** A non-empty slice that starts inside the string starts with the
    character at its first index. *)
Lemma substring_head (s : string) (i n : nat) (c : ascii) :
  String.get i s = Some c →
  String.substring i (S n) s = String c (String.substring (S i) n s).
Proof.
  revert i. induction s as [|a s IH]; intros [|i]; simpl; try done.
  - intros [= ->]. done.
  - intros ?. by rewrite IH.
Qed.

Lemma substring_one (s : string) (i : nat) (c : ascii) :
  String.get i s = Some c → String.substring i 1 s = String c EmptyString.
Proof. intros H. by rewrite (substring_head _ _ _ _ H), substring_nothing. Qed.

Lemma last_char_get (s : string) :
  last_char s = String.get (String.length s - 1) s.
Proof.
  induction s as [|a s IH]; [done|].
  destruct s as [|b s]; [done|].
  change (last_char (String a (String b s))) with (last_char (String b s)).
  rewrite IH. simpl. by rewrite Nat.sub_0_r.
Qed.

Lemma prefix_length (s1 s2 : string) :
  String.prefix s1 s2 = true → String.length s1 ≤ String.length s2.
Proof.
  revert s1. induction s2 as [|b s2 IH]; intros [|a s1]; simpl; try done; try lia.
  destruct (ascii_dec a b); [|done]. intros ?%IH. lia.
Qed.

(** [s.find(sub, start)] answers an index at or after [start] at which
    [sub] fits in [s]. *)
Lemma index_bounds (s1 s2 : string) (n m : nat) :
  String.index n s1 s2 = Some m →
  n ≤ m ∧ m + String.length s1 ≤ String.length s2.
Proof.
  revert n m. induction s2 as [|b s2 IH]; intros n m.
  - destruct n; simpl; [|done]. destruct s1; [|done]. intros [= <-]. simpl. lia.
  - destruct n as [|n].
    + cbn [String.index].
      destruct (String.prefix s1 (String b s2)) eqn:Hp.
      * intros [= <-]. apply prefix_length in Hp. lia.
      * destruct (String.index 0 s1 s2) as [k|] eqn:Hi; [|done].
        intros [= <-]. apply IH in Hi. simpl. lia.
    + cbn [String.index].
      destruct (String.index n s1 s2) as [k|] eqn:Hi; [|done].
      intros [= <-]. apply IH in Hi. simpl. lia.
Qed.

Lemma concat_text_app (ps qs : list Piece) :
  concat_text (ps ++ qs) = concat_text ps +:+ concat_text qs.
Proof.
  induction ps as [|p ps IH]; [done|].
  simpl. unfold concat_text in *. simpl. by rewrite IH, app_assoc_s.
Qed.

Lemma concat_text_cons (p : Piece) (ps : list Piece) :
  concat_text (p :: ps) = get_text p +:+ concat_text ps.
Proof. reflexivity. Qed.

(** ** The lexer: what a search answers *)


Lemma run_length_le (f : ascii → bool) (s : string) :
  run_length f s ≤ String.length s.
Proof. induction s as [|a s IH]; simpl; [lia|]. destruct (f a); lia. Qed.

Lemma run_length_all (f : ascii → bool) (s : string) (k : nat) :
  k < run_length f s → ∃ c, String.get k s = Some c ∧ f c = true.
Proof.
  revert k. induction s as [|a s IH]; intros k; simpl; [lia|].
  destruct (f a) eqn:Hf; [|lia].
  destruct k as [|k]; [eauto|]. intros ?. apply IH. lia.
Qed.

Lemma run_length_stop (f : ascii → bool) (s : string) (c : ascii) :
  String.get (run_length f s) s = Some c → f c = false.
Proof.
  induction s as [|a s IH]; simpl; [done|].
  destruct (f a) eqn:Hf; [done|]. by intros [= <-].
Qed.

Lemma spaces_search_spec (s : string) (i col st en : nat) :
  spaces_search s i col = Some (st, en) →
  i ≤ st ∧ col ≤ st ∧ st < en ∧ en ≤ i + String.length s ∧
  ∀ k, st ≤ k < en → ∃ c, String.get (k - i) s = Some c ∧ is_space_tab c = true.
Proof.
  revert i. induction s as [|a s IH]; intros i; simpl; [done|].
  destruct ((col <=? i) && is_space_tab a) eqn:Hc.
  - intros [= <- <-]. apply andb_true_iff in Hc as [Hle Ha].
    apply Nat.leb_le in Hle. pose proof (run_length_le is_space_tab s).
    repeat split; try lia. intros k Hk.
    destruct (decide (k = i)) as [->|Hne].
    + rewrite Nat.sub_diag. eauto.
    + replace (k - i) with (S (k - S i)) by lia. simpl.
      apply run_length_all. lia.
  - intros H. apply IH in H as (? & ? & ? & ? & Hall).
    repeat split; try lia. intros k Hk.
    replace (k - i) with (S (k - S i)) by lia. simpl. by apply Hall.
Qed.

Lemma string_body_spec (s : string) (n : nat) :
  string_body s = Some n →
  1 ≤ n ∧ n ≤ String.length s ∧ String.get (n - 1) s = Some ch_dquote.
Proof.
  remember (String.length s) as m eqn:Hm. revert s n Hm.
  induction m as [m IH0] using lt_wf_ind. intros s n ->.
  assert (IH : ∀ s' k, String.length s' < String.length s → string_body s' = Some k →
    1 ≤ k ∧ k ≤ String.length s' ∧ String.get (k - 1) s' = Some ch_dquote)
    by (intros s' k Hlt; by apply (IH0 _ Hlt)).
  clear IH0. destruct s as [|a s]; simpl; [done|].
  case_bool_decide as Hq.
  - intros [= <-]. subst a. simpl. split; [lia|]. split; [lia|done].
  - case_bool_decide as Hb.
    + destruct s as [|d s]; [done|].
      case_bool_decide; [done|].
      destruct (string_body s) as [k|] eqn:Hk; [|done].
      intros [= <-]. apply IH in Hk as (? & ? & Hg); [|simpl; lia].
      simpl. split; [lia|]. split; [lia|].
      destruct k as [|k]; [lia|]. simpl in *. by rewrite Nat.sub_0_r in Hg.
    + destruct (string_body s) as [k|] eqn:Hk; [|done].
      intros [= <-]. apply IH in Hk as (? & ? & Hg); [|simpl; lia].
      simpl. split; [lia|]. split; [lia|].
      destruct k as [|k]; [lia|]. simpl in *. by rewrite Nat.sub_0_r in Hg.
Qed.

Lemma string_search_spec (s : string) (i col st en : nat) :
  string_search s i col = Some (st, en) →
  i ≤ st ∧ col ≤ st ∧ st < en ∧ en ≤ i + String.length s ∧
  String.get (st - i) s = Some ch_dquote ∧
  String.get (en - 1 - i) s = Some ch_dquote.
Proof.
  revert i. induction s as [|a s IH]; intros i; simpl; [done|].
  assert (Hrec : string_search s (S i) col = Some (st, en) →
    i ≤ st ∧ col ≤ st ∧ st < en ∧ en ≤ i + S (String.length s) ∧
    String.get (st - i) (String a s) = Some ch_dquote ∧
    String.get (en - 1 - i) (String a s) = Some ch_dquote).
  { intros H. apply IH in H as (? & ? & ? & ? & Hs & He).
    repeat split; try lia.
    - replace (st - i) with (S (st - S i)) by lia. done.
    - replace (en - 1 - i) with (S (en - 1 - S i)) by lia. done. }
  destruct ((col <=? i) && bool_decide (a = ch_dquote)) eqn:Hc; [|done].
  destruct (string_body s) as [n|] eqn:Hn; [|done].
  intros [= <- <-]. apply andb_true_iff in Hc as [Hle Ha].
  apply Nat.leb_le in Hle. apply bool_decide_eq_true in Ha as ->.
  apply string_body_spec in Hn as (? & ? & Hg).
  repeat split; try lia.
  - by rewrite Nat.sub_diag.
  - match goal with
    | |- context [match ?x with 0 => _ | S _ => _ end] =>
        replace x with (S (n - 1)) by lia
    end. done.
Qed.

Lemma identifier_search_spec (prev : option ascii) (s : string) (i col st en : nat) :
  identifier_search unicode_word prev s i col = Some (st, en) →
  i ≤ st ∧ col ≤ st ∧ st < en ∧ en ≤ i + String.length s ∧
  ∀ c, String.get (en - i) s = Some c → is_ident_char c = false.
Proof.
  revert prev i. induction s as [|a s IH]; intros prev i; simpl; [done|].
  destruct ((col <=? i) && is_ident_start a
            && negb (from_option (is_word unicode_word) false prev)) eqn:Hc.
  - intros [= <- <-]. apply andb_true_iff in Hc as [Hc _].
    apply andb_true_iff in Hc as [Hle _]. apply Nat.leb_le in Hle.
    pose proof (run_length_le is_ident_char s).
    repeat split; try lia. intros c.
    match goal with
    | |- context [match ?x with 0 => _ | S _ => _ end] =>
        replace x with (S (run_length is_ident_char s)) by lia
    end. apply run_length_stop.
  - intros H. apply IH in H as (? & ? & ? & ? & Hstop).
    repeat split; try lia. intros c.
    replace (en - i) with (S (en - S i)) by lia. simpl. apply Hstop.
Qed.

Lemma entry_search_spec (m : Matcher) (line : string) (col st en : nat) :
  (∀ lit, m = ByLiteral lit → lit ≠ EmptyString) →
  entry_search unicode_word m line col = Some (st, en) →
  col ≤ st ∧ st < en ∧ en ≤ String.length line ∧ match_facts line m st en.
Proof.
  intros Hlit. destruct m as [[]|lit]; simpl.
  - intros (? & ? & ? & ? & Hall)%spaces_search_spec.
    repeat split; try lia. intros k Hk.
    specialize (Hall k Hk). by rewrite Nat.sub_0_r in Hall.
  - intros (? & ? & ? & ? & Hs & He)%string_search_spec.
    rewrite Nat.sub_0_r in Hs, He. repeat split; try lia; done.
  - intros (? & ? & ? & ? & Hstop)%identifier_search_spec.
    repeat split; try lia. intros c. specialize (Hstop c).
    by rewrite Nat.sub_0_r in Hstop.
  - destruct (String.index col lit line) as [i|] eqn:Hi; [|done].
    intros [= <- <-]. pose proof (index_bounds _ _ _ _ Hi) as [? ?].
    assert (0 < String.length lit).
    { destruct lit; [by destruct (Hlit EmptyString)|simpl; lia]. }
    repeat split; try lia. by apply String.index_correct1 in Hi.
Qed.

Lemma entries_literals (e : Matcher * PieceKind) :
  e ∈ entries → ∀ lit, e.1 = ByLiteral lit → lit ≠ EmptyString.
Proof.
  unfold entries. rewrite !elem_of_cons, elem_of_nil.
  intros H lit He. destruct e as [m k]. simpl in He. subst m.
  repeat (destruct H as [H|H]; [by inversion H|]). done.
Qed.

Lemma find_best_ok (es : list (Matcher * PieceKind)) (line : string) (col : nat)
    (best : option ((Matcher * PieceKind) * nat * nat)) :
  es ⊆ entries → best_ok line col best →
  best_ok line col (find_best unicode_word es line col best).
Proof.
  revert best. induction es as [|e es IH]; intros best Hsub Hbest; simpl; [done|].
  assert (e ∈ entries) by (apply Hsub; left).
  assert (es ⊆ entries) by (intros x Hx; apply Hsub; by right).
  destruct (entry_search unicode_word e.1 line col) as [[start end_]|] eqn:He; [|by apply IH].
  destruct (match best with
            | Some (_, best_start, _) => start <? best_start
            | None => true
            end); [|by apply IH].
  destruct (start =? 0); [done|]. by apply IH.
Qed.

(** No entry matches before the candidate [find_best] answers. *)
Lemma find_best_min (es : list (Matcher * PieceKind)) (line : string) (col : nat)
    (best : option ((Matcher * PieceKind) * nat * nat)) :
  (∀ e0 s0 n0, best = Some (e0, s0, n0) →
     ∃ e st en, find_best unicode_word es line col best = Some (e, st, en) ∧ st ≤ s0) ∧
  (∀ e0 s0 n0, e0 ∈ es → entry_search unicode_word e0.1 line col = Some (s0, n0) →
     ∃ e st en, find_best unicode_word es line col best = Some (e, st, en) ∧ st ≤ s0).
Proof.
  revert best. induction es as [|e es IH]; intros best; simpl.
  { split.
    - intros e0 s0 n0 ->. eauto.
    - intros e0 s0 n0 []%elem_of_nil. }
  destruct (entry_search unicode_word e.1 line col) as [[start end_]|] eqn:He.
  2:{ destruct (IH best) as [IH1 IH2]. split; [done|].
      intros e0 s0 n0 [->|Hin]%elem_of_cons Hs; [congruence|eauto]. }
  destruct best as [[[b0 bs] be]|].
  - destruct (start <? bs) eqn:Hlt.
    + apply Nat.ltb_lt in Hlt. destruct (start =? 0) eqn:H0.
      * apply Nat.eqb_eq in H0 as ->. split.
        -- intros ? s0 ? _. exists e, 0, end_. split; [done|lia].
        -- intros ? s0 ? _ _. exists e, 0, end_. split; [done|lia].
      * destruct (IH (Some (e, start, end_))) as [IH1 IH2].
        destruct (IH1 _ _ _ eq_refl) as (e' & st & en & Hr & Hle). split.
        -- intros ? ? ? [= <- <- <-]. exists e', st, en. split; [done|lia].
        -- intros e0 s0 n0 [->|Hin]%elem_of_cons Hs; [|eauto].
           rewrite He in Hs. injection Hs as <- <-. eauto.
    + apply Nat.ltb_ge in Hlt. destruct (IH (Some (b0, bs, be))) as [IH1 IH2].
      split; [done|].
      intros e0 s0 n0 [->|Hin]%elem_of_cons Hs; [|eauto].
      rewrite He in Hs. injection Hs as <- <-.
      destruct (IH1 _ _ _ eq_refl) as (e' & st & en & Hr & Hle).
      exists e', st, en. split; [done|lia].
  - destruct (start =? 0) eqn:H0.
    + apply Nat.eqb_eq in H0 as ->. split; [done|].
      intros ? s0 ? _ _. exists e, 0, end_. split; [done|lia].
    + destruct (IH (Some (e, start, end_))) as [IH1 IH2]. split; [done|].
      intros e0 s0 n0 [->|Hin]%elem_of_cons Hs; [|eauto].
      rewrite He in Hs. injection Hs as <- <-. eauto.
Qed.

Lemma end_before_newline_bounds (line : string) (col : nat) :
  col < String.length line → String.get col line ≠ Some ch_newline →
  col < end_before_newline line ∧ end_before_newline line ≤ String.length line.
Proof.
  intros Hlt Hne. unfold end_before_newline, ends_with_newline.
  case_bool_decide as Hl; [|lia].
  rewrite last_char_get in Hl.
  destruct (decide (col = String.length line - 1)) as [->|]; [done|lia].
Qed.

(** The character at [end_before_newline], if there is one, is a newline. *)
Lemma end_before_newline_next (line : string) (c : ascii) :
  String.get (end_before_newline line) line = Some c → c = ch_newline.
Proof.
  unfold end_before_newline, ends_with_newline.
  case_bool_decide as Hl.
  - rewrite last_char_get in Hl. congruence.
  - by rewrite get_ge.
Qed.

Lemma substring_get_head (s : string) (i n : nat) (c : ascii) (r : string) :
  String.substring i (S n) s = String c r → String.get i s = Some c.
Proof.
  revert i. induction s as [|a s IH]; intros [|i]; simpl; try done.
  - by intros [= -> _].
  - apply IH.
Qed.

Lemma get_text_substr (k : PieceKind) (lineno : nat) (fname : option string)
    (col len : nat) (line : string) :
  get_text (SubstrPiece k (at_column lineno fname col) len line)
  = String.substring col len line.
Proof. reflexivity. Qed.

(** ** The lexer: one round of the loop over a line *)

Lemma find_end_of_block_comment_piece_spec (line : string) (start col : nat)
    (end_ : nat) (found : bool) :
  col < String.length line → String.get col line ≠ Some ch_newline → col ≤ start →
  find_end_of_block_comment_piece line start = (end_, found) →
  col < end_ ≤ String.length line ∧ ends_comment line end_.
Proof.
  intros Hlt Hne Hle. unfold find_end_of_block_comment_piece.
  destruct (String.index start "*/" line) as [i|] eqn:Hi; intros [= <- <-].
  - pose proof (index_bounds _ _ _ _ Hi) as [? ?]. simpl in *.
    split; [lia|]. left. exists i. split; [done|].
    by apply String.index_correct1 in Hi.
  - pose proof (end_before_newline_bounds _ _ Hlt Hne). split; [lia|]. by right.
Qed.

Lemma tokenize_step_shape (fname : option string) (lineno : nat) (line : string)
    (col : nat) (mode : bool) (ps : list Piece) (col' : nat) (mode' : bool) :
  col < String.length line →
  tokenize_step unicode_word fname lineno line col mode = (ps, col', mode') →
  step_shape fname lineno line col ps col'.
Proof.
  intros Hlt. unfold tokenize_step.
  case_bool_decide as Hnl.
  { intros [= <- <- <-]. by constructor. }
  destruct mode.
  { destruct (find_end_of_block_comment_piece line col) as [end_ found] eqn:Hf.
    intros [= <- <- <-].
    apply (find_end_of_block_comment_piece_spec _ _ col) in Hf as [? ?]; [|done..].
    by constructor. }
  destruct (find_best unicode_word entries line col None) as [[[best bs] be]|] eqn:Hb.
  2:{ intros [= <- <- <-]. by constructor. }
  pose proof (find_best_ok entries line col None (reflexivity _) I) as Hok.
  rewrite Hb in Hok. destruct Hok as [Hin Hs].
  pose proof (entry_search_spec _ _ _ _ _ (entries_literals _ Hin) Hs)
    as (Hcb & Hbe & Hel & Hfacts).
  assert (Hcol : (if col <? bs then bs else col) = bs).
  { destruct (col <? bs) eqn:E; [done|]. apply Nat.ltb_ge in E. lia. }
  rewrite Hcol.
  assert (Hslash : ∀ r, best.1 = ByLiteral (String "/" r) →
            bs < String.length line ∧ String.get bs line ≠ Some ch_newline).
  { intros r Hr. rewrite Hr in Hfacts. destruct Hfacts as [Hsub _]. simpl in Hsub.
    apply substring_get_head in Hsub. split; [by eapply get_lt|]. by rewrite Hsub. }
  case_bool_decide as Hbc.
  { destruct (find_end_of_block_comment_piece line (bs + 2)) as [end_ found] eqn:Hf.
    intros [= <- <- <-]. destruct (Hslash _ Hbc) as [? ?].
    apply (find_end_of_block_comment_piece_spec _ _ bs) in Hf as [? ?]; [|done|done|lia].
    eapply shape_match; eauto. }
  case_bool_decide as Hlc.
  { intros [= <- <- <-]. destruct (Hslash _ Hlc) as [? ?].
    pose proof (end_before_newline_bounds _ _ H H0).
    eapply shape_match; eauto. right. split.
    - destruct best as [m k]. simpl in Hlc. subst m. revert Hin. unfold entries.
      rewrite !elem_of_cons, elem_of_nil. intros Hin.
      repeat (destruct Hin as [Hin|Hin]; [by inversion Hin|]). done.
    - split; [lia|]. by right. }
  intros [= <- <- <-]. eapply shape_match; eauto.
Qed.

(** A round moves forward, stays inside the line, and the texts of its
    pieces are the part of the line it went over. *)
Lemma step_shape_progress (fname : option string) (lineno : nat) (line : string)
    (col : nat) (ps : list Piece) (col' : nat) :
  col < String.length line →
  step_shape fname lineno line col ps col' →
  col < col' ≤ String.length line
  ∧ concat_text ps = String.substring col (col' - col) line.
Proof.
  intros Hlt Hshape. destruct Hshape as [Hnl|col' Hb He|Hnl Hnone|best bs be k col' Hnl Hb Hin Hs Hk].
  - split; [lia|]. replace (col + 1 - col) with 1 by lia.
    rewrite (substring_one _ _ _ Hnl). reflexivity.
  - split; [lia|]. rewrite concat_text_cons, get_text_substr. apply app_empty_r.
  - pose proof (end_before_newline_bounds _ _ Hlt Hnl). split; [lia|].
    rewrite concat_text_cons, get_text_substr. apply app_empty_r.
  - pose proof (entry_search_spec _ _ _ _ _ (entries_literals _ Hin) Hs)
      as (Hcb & Hbe & Hel & _).
    assert (bs < col' ≤ String.length line) as Hc'.
    { destruct Hk as [(_ & -> & _)|(_ & ? & _)]; lia. }
    split; [lia|].
    destruct (col <? bs) eqn:E.
    + apply Nat.ltb_lt in E. cbn [app].
      rewrite !concat_text_cons, !get_text_substr.
      change (concat_text []) with EmptyString. rewrite app_empty_r.
      replace bs with (col + (bs - col)) at 2 by lia.
      rewrite substring_split. f_equal. lia.
    + apply Nat.ltb_ge in E. assert (bs = col) as -> by lia. cbn [app].
      rewrite concat_text_cons, get_text_substr. apply app_empty_r.
Qed.

(** ** The lexer: the text of the pieces it makes *)

Lemma is_word_ascii (c : ascii) :
  nat_of_ascii c < 128 → is_word unicode_word c = is_ident_char c.
Proof. intros H. unfold is_word. by apply Nat.ltb_lt in H as ->. Qed.

Lemma is_space_tab_not_word (c : ascii) :
  is_space_tab c = true →
  is_word unicode_word c = false ∧ is_ident_start c = false.
Proof.
  unfold is_space_tab. intros [H|H]%orb_true_iff;
    apply bool_decide_eq_true in H as ->; done.
Qed.

Lemma not_ident_char_not_start (c : ascii) :
  is_ident_char c = false → is_ident_start c = false.
Proof. unfold is_ident_char. by intros [? _]%orb_false_iff. Qed.

(** Where [\b] holds in front of a letter or underscore at or after [col],
    the identifier pattern matches there. *)
Lemma identifier_search_here (prev : option ascii) (s : string) (i col : nat)
    (c : ascii) :
  i ≤ col → String.get (col - i) s = Some c → is_ident_start c = true →
  match col - i with
  | 0 => from_option (is_word unicode_word) false prev = false
  | S k => ∃ p, String.get k s = Some p ∧ is_word unicode_word p = false
  end →
  ∃ en, identifier_search unicode_word prev s i col = Some (col, en).
Proof.
  revert prev i. induction s as [|a s IH]; intros prev i Hle Hget Hstart Hbefore.
  { by destruct (col - i). }
  destruct (decide (col = i)) as [->|Hne].
  - rewrite Nat.sub_diag in Hget, Hbefore. simpl in Hget. injection Hget as ->.
    simpl. rewrite Nat.leb_refl, Hstart, Hbefore. simpl. eauto.
  - simpl. replace (col <=? i) with false by (symmetry; apply Nat.leb_gt; lia).
    simpl. apply IH; [lia| |done|].
    + replace (col - i) with (S (col - S i)) in Hget by lia. done.
    + replace (col - i) with (S (col - S i)) in Hbefore by lia.
      destruct (col - S i) as [|k]; simpl in *.
      * destruct Hbefore as (p & [= <-] & ?). done.
      * done.
Qed.

Lemma identifier_at_boundary (line : string) (col : nat) (c : ascii) :
  boundary_ok line col → String.get col line = Some c → is_ident_start c = true →
  ∃ e st en, find_best unicode_word entries line col None = Some (e, st, en) ∧ st ≤ col.
Proof.
  intros Hb Hget Hstart.
  assert (∃ en, identifier_search unicode_word None line 0 col = Some (col, en))
    as [en Hen].
  { apply (identifier_search_here None line 0 col c); [lia|by rewrite Nat.sub_0_r|done|].
    rewrite Nat.sub_0_r. destruct Hb as [->|[(p & Hp & Hw)|Hb]]; [done| |].
    - destruct col as [|k]; [done|]. simpl in Hp. rewrite Nat.sub_0_r in Hp. eauto.
    - rewrite (Hb c Hget) in Hstart. done. }
  destruct (find_best_min entries line col None) as [_ Hmin].
  apply (Hmin (ByPattern IDENTIFIER_PAT, PIECE_IDENTIFIER) col en); [|done].
  unfold entries. rewrite !elem_of_cons. auto 10.
Qed.

Lemma ends_comment_boundary (line : string) (col' : nat) :
  ends_comment line col' → boundary_ok line col'.
Proof.
  intros [(i & -> & Hsub)| ->].
  - right; left. exists "/"%char. split; [|done].
    replace (i + 2 - 1) with (1 + i) by lia.
    rewrite <- (String.substring_correct1 line i 2 1) by lia. by rewrite Hsub.
  - right; right. intros c ->%end_before_newline_next. done.
Qed.

Lemma step_shape_pieces (fname : option string) (lineno : nat) (line : string)
    (col : nat) (ps : list Piece) (col' : nat) :
  col < String.length line → boundary_ok line col →
  step_shape fname lineno line col ps col' →
  Forall piece_ok ps ∧ boundary_ok line col'.
Proof.
  intros Hlt Hbd Hshape.
  assert (Htext : ∀ n, 0 < n →
    piece_ok (SubstrPiece PIECE_TEXT (at_column lineno fname col) n line) ∨
    ∃ e st en, find_best unicode_word entries line col None = Some (e, st, en) ∧ st ≤ col).
  { intros n Hn. destruct (get_is_Some line col Hlt) as [c Hc].
    destruct (is_ident_start c) eqn:Hstart.
    - right. by eapply identifier_at_boundary.
    - left. split; [done|]. intros _ c' r. rewrite get_text_substr.
      destruct n as [|n]; [lia|]. intros Hsub%substring_get_head. congruence. }
  destruct Hshape as [Hnl|col' Hb He|Hnl Hnone|best bs be k col' Hnl Hb Hin Hs Hk].
  - split.
    + constructor; [|done]. split; [done|]. by intros [=].
    + right; left. exists ch_newline. replace (col + 1 - 1) with col by lia. done.
  - split; [|by apply ends_comment_boundary].
    constructor; [|done]. split; [done|]. by intros [=].
  - pose proof (end_before_newline_bounds _ _ Hlt Hnl). split.
    + constructor; [|done].
      destruct (Htext (end_before_newline line - col)) as [?|(? & ? & ? & ? & _)];
        [lia|done|congruence].
    + right; right. intros c ->%end_before_newline_next. done.
  - pose proof (entry_search_spec _ _ _ _ _ (entries_literals _ Hin) Hs)
      as (Hcb & Hbe & Hel & Hfacts).
    assert (Forall piece_ok
              (if col <? bs
               then [SubstrPiece PIECE_TEXT (at_column lineno fname col) (bs - col) line]
               else [])) as Hbefore.
    { destruct (col <? bs) eqn:E; [|done]. apply Nat.ltb_lt in E.
      constructor; [|done].
      destruct (Htext (bs - col)) as [?|(? & st & ? & Hf & ?)]; [lia|done|].
      rewrite Hb in Hf. injection Hf as <- <- <-. lia. }
    destruct Hk as [(-> & -> & Hn1 & Hn2)|(-> & ? & ?)].
    2:{ split; [|by apply ends_comment_boundary].
        apply Forall_app. split; [done|]. constructor; [|done].
        split; [done|]. by intros [=]. }
    destruct best as [m k]. cbn [fst snd] in *. clear Hb Htext. revert Hin.
    unfold entries.
    rewrite !elem_of_cons, elem_of_nil. intros Hin.
    repeat (destruct Hin as [Hin|Hin]; [injection Hin as -> ->|]); try done;
      simpl in Hfacts.
    + (* whitespace *)
      destruct (Hfacts bs) as (c & Hc & [? ?]%is_space_tab_not_word); [lia|].
      destruct (Hfacts (be - 1)) as (c' & Hc' & [? ?]%is_space_tab_not_word); [lia|].
      split; [|right; left; eauto].
      apply Forall_app. split; [done|]. constructor; [|done]. split; [done|].
      intros _ c0 r. rewrite get_text_substr.
      replace (be - bs) with (S (be - bs - 1)) by lia.
      intros Hsub%substring_get_head. congruence.
    + (* string *)
      destruct Hfacts as [Hq1 Hq2]. split; [|right; left; by exists ch_dquote].
      apply Forall_app. split; [done|]. constructor; [|done]. split; [done|].
      intros _ c0 r. rewrite get_text_substr.
      replace (be - bs) with (S (be - bs - 1)) by lia.
      intros Hsub%substring_get_head. by replace c0 with ch_dquote by congruence.
    + (* identifier *)
      split.
      * apply Forall_app. split; [done|]. constructor; [|done].
        split; [done|]. by intros [=].
      * right; right. intros c Hc. by apply not_ident_char_not_start, Hfacts.
    + (* open parenthesis *)
      destruct Hfacts as [Hsub ->]. simpl in Hsub.
      pose proof (substring_get_head _ _ _ _ _ Hsub) as Hg. split.
      * apply Forall_app. split; [done|]. constructor; [|done]. split; [done|].
        intros _ c0 r. rewrite get_text_substr.
        match goal with
        | |- context [String.substring bs ?n line] => replace n with 1 by (simpl; lia)
        end. rewrite Hsub. by intros [= <- _].
      * right; left. exists "("%char. split; [|done].
        rewrite <- Hg. f_equal. simpl. lia.
    + (* close parenthesis *)
      destruct Hfacts as [Hsub ->]. simpl in Hsub.
      pose proof (substring_get_head _ _ _ _ _ Hsub) as Hg. split.
      * apply Forall_app. split; [done|]. constructor; [|done]. split; [done|].
        intros _ c0 r. rewrite get_text_substr.
        match goal with
        | |- context [String.substring bs ?n line] => replace n with 1 by (simpl; lia)
        end. rewrite Hsub. by intros [= <- _].
      * right; left. exists ")"%char. split; [|done].
        rewrite <- Hg. f_equal. simpl. lia.
    + (* comma *)
      destruct Hfacts as [Hsub ->]. simpl in Hsub.
      pose proof (substring_get_head _ _ _ _ _ Hsub) as Hg. split.
      * apply Forall_app. split; [done|]. constructor; [|done].
        split; [done|]. by intros [=].
      * right; left. exists ","%char. split; [|done].
        rewrite <- Hg. f_equal. simpl. lia.
Qed.

(** ** The lexer: a whole line, a whole file *)

Lemma tokenize_line_spec (fuel : nat) (fname : option string) (lineno : nat)
    (line : string) (col : nat) (mode : bool) :
  col ≤ String.length line → String.length line - col ≤ fuel →
  boundary_ok line col →
  ∃ ps mode',
    tokenize_line unicode_word fuel fname lineno line col mode = Some (ps, mode')
    ∧ concat_text ps = String.substring col (String.length line - col) line
    ∧ Forall piece_ok ps.
Proof.
  revert col mode. induction fuel as [|fuel IH]; intros col mode Hle Hfuel Hbd.
  - exists [], mode. assert (col = String.length line) as -> by lia.
    simpl. rewrite Nat.leb_refl. rewrite Nat.sub_diag, substring_nothing. done.
  - cbn [tokenize_line].
    destruct (String.length line <=? col) eqn:E.
    { apply Nat.leb_le in E. exists [], mode.
      replace (String.length line - col) with 0 by lia.
      by rewrite substring_nothing. }
    apply Nat.leb_gt in E.
    destruct (tokenize_step unicode_word fname lineno line col mode)
      as [[ps col'] mode'] eqn:Hstep.
    apply tokenize_step_shape in Hstep; [|done].
    destruct (step_shape_progress _ _ _ _ _ _ E Hstep) as [Hcol' Htext].
    destruct (step_shape_pieces _ _ _ _ _ _ E Hbd Hstep) as [Hok Hbd'].
    destruct (IH col' mode') as (rest & mode'' & Hr & Hrest & Hokrest); [lia|lia|done|].
    exists (ps ++ rest), mode''. rewrite Hr. cbn.
    split; [done|]. split; [|by apply Forall_app].
    rewrite concat_text_app, Htext, Hrest.
    replace col' with (col + (col' - col)) at 2 by lia.
    rewrite substring_split. f_equal. lia.
Qed.

Lemma tokenize_lines_spec (fname : option string) (lines : list string)
    (lineno : nat) (mode : bool) :
  ∃ ps,
    tokenize_lines unicode_word fname lines lineno mode
    = Some (ps ++ [eof_piece fname (lineno + length lines)])
    ∧ concat_text ps = concat_lines lines
    ∧ Forall piece_ok ps.
Proof.
  revert lineno mode. induction lines as [|line lines IH]; intros lineno mode.
  - exists []. simpl. by rewrite Nat.add_0_r.
  - cbn [tokenize_lines].
    destruct (tokenize_line_spec (String.length line) fname lineno line 0 mode)
      as (ps & mode' & Hl & Hps & Hok); [lia|lia|by left|].
    destruct (IH (S lineno) mode') as (rest & Hr & Hrest & Hokrest).
    exists (ps ++ rest). rewrite Hl. cbn. rewrite Hr. cbn. split.
    + rewrite <- app_assoc. by rewrite Nat.add_succ_r.
    + split; [|by apply Forall_app].
      rewrite concat_text_app, Hps, Hrest, Nat.sub_0_r, substring_whole. done.
Qed.

Lemma rev_app_app (s1 s2 : string) : String.rev_app s1 s2 = String.rev s1 +:+ s2.
Proof.
  revert s2. induction s1 as [|a s1 IH]; intros s2; [done|].
  unfold String.rev. simpl. rewrite (IH (String a s2)), (IH (String a EmptyString)).
  by rewrite app_assoc_s.
Qed.

Lemma split_lines_go_concat (cur s : string) :
  concat_lines (split_lines_go cur s) = String.rev cur +:+ s.
Proof.
  revert cur. induction s as [|c s IH]; intros cur; simpl.
  - destruct cur; [done|]. simpl. by rewrite !app_empty_r.
  - assert (String.rev (String c cur) +:+ s = String.rev cur +:+ String c s) as Hrev.
    { unfold String.rev at 1. simpl. by rewrite rev_app_app, app_assoc_s. }
    case_bool_decide.
    + simpl. by rewrite IH.
    + by rewrite IH.
Qed.

(** The lines of a file, put together, are the file. *)
Lemma line_stream_concat (content : string) :
  concat_lines (line_stream_file content) = content.
Proof. apply split_lines_go_concat. Qed.

(** The lexer always answers: the pieces of the file, then one end-of-file
    piece. *)
Lemma tokenize_spec (fname : option string) (content : string) :
  ∃ ps lineno,
    tokenize unicode_word fname content = Some (ps ++ [eof_piece fname lineno])
    ∧ concat_text ps = content
    ∧ Forall piece_ok ps.
Proof.
  destruct (tokenize_lines_spec fname (line_stream_file content) 1 false)
    as (ps & Ht & Htext & Hok).
  exists ps, (1 + length (line_stream_file content)).
  split; [done|]. split; [|done]. by rewrite Htext, line_stream_concat.
Qed.


End WithWordClass.

(** ** The directive recognizer: which edge a piece takes *)

Lemma keyword_edges :
  forallb (λ s, forallb keyword_edge (edges_of s)) STATES = true.
Proof. vm_compute. reflexivity. Qed.

Lemma keyword_edge_in (num : nat) (expected : string) (edges : list Edge) (e : Edge) :
  MatchState num expected edges ∈ STATES → e ∈ edges → keyword_edge e = true.
Proof.
  intros Hs He. pose proof keyword_edges as H.
  rewrite forallb_forall in H. apply list_elem_of_In in Hs.
  specialize (H _ Hs). simpl in H. rewrite forallb_forall in H.
  apply H. by apply list_elem_of_In.
Qed.

(** On a keyword edge the two predicates agree for an identifier piece and
    for a piece whose text does not start like an identifier. *)
Lemma edge_matches_agree (e : Edge) (p : Piece) :
  keyword_edge e = true →
  piece_kind p = PIECE_IDENTIFIER
  ∨ (∀ c r, get_text p = String c r → is_ident_start c = false) →
  edge_matches e p = edge_matches_spec e p.
Proof.
  unfold keyword_edge, edge_matches, edge_matches_spec.
  destruct (edge_text e) as [t|]; simpl.
  - intros [Hk Ht]%andb_true_iff Hp. apply bool_decide_eq_true in Hk.
    rewrite andb_false_r. simpl. rewrite Hk.
    destruct Hp as [->|Hp].
    + rewrite (bool_decide_eq_true_2 (PIECE_IDENTIFIER = PIECE_IDENTIFIER)) by done.
      simpl.
      apply bool_decide_ext. split; [by intros [= ->]|by intros ->].
    + rewrite (bool_decide_eq_false_2 (Some t = Some (get_text p))).
      2:{ intros [= ->]. destruct (get_text p) as [|c r]; [done|].
          by rewrite (Hp c r) in Ht. }
      symmetry. apply andb_false_iff. right. apply bool_decide_eq_false_2.
      intros ->. destruct (get_text p) as [|c r]; [done|].
      by rewrite (Hp c r) in Ht.
  - intros _ _. by rewrite andb_true_r, orb_false_r.
Qed.

Lemma find_ext_in {A} (f g : A → bool) (l : list A) :
  (∀ x, x ∈ l → f x = g x) → List.find f l = List.find g l.
Proof.
  induction l as [|x l IH]; intros H; [done|]. simpl.
  rewrite (H x) by left. destruct (g x); [done|]. apply IH.
  intros y Hy. apply H. by right.
Qed.

Lemma select_edge_early (num : nat) (expected : string) (edges : list Edge) (p : Piece) :
  MatchState num expected edges ∈ STATES → early_kind (piece_kind p) = true →
  select_edge edges p = List.find (λ e, edge_matches_spec e p) edges.
Proof.
  intros Hs Hk. unfold STATES in Hs.
  repeat (apply elem_of_cons in Hs as [Hs|Hs];
          [first [discriminate Hs
                 | injection Hs as -> -> ->; destruct p as [[] ? ? ?|[] ? ?];
                   first [discriminate Hk | reflexivity]]|]).
  by apply elem_of_nil in Hs.
Qed.

Lemma select_edge_agrees (num : nat) (expected : string) (edges : list Edge) (p : Piece) :
  MatchState num expected edges ∈ STATES →
  early_kind (piece_kind p) = true
  ∨ piece_kind p = PIECE_IDENTIFIER
  ∨ (∀ c r, get_text p = String c r → is_ident_start c = false) →
  select_edge edges p = List.find (λ e, edge_matches_spec e p) edges.
Proof.
  intros Hs [Hk|Hp]; [by eapply select_edge_early|].
  apply find_ext_in. intros e He. apply edge_matches_agree; [|done].
  by eapply keyword_edge_in.
Qed.

Lemma plain_or_special (k : PieceKind) :
  early_kind k = true ∨ k = PIECE_IDENTIFIER ∨ plain_kind k = true.
Proof. destruct k; vm_compute; auto. Qed.

Lemma lexer_pieces_recognizable (unicode_word : ascii → bool)
    (fname : option string) (content : string) (toks : list Piece) :
  tokenize unicode_word fname content = Some toks → Forall recognizable toks.
Proof.
  intros Ht. destruct (tokenize_spec unicode_word fname content)
    as (ps & lineno & Ht' & _ & Hok).
  rewrite Ht in Ht'. injection Ht' as ->. apply Forall_app. split.
  - eapply Forall_impl; [exact Hok|]. intros p [_ Hp]. unfold recognizable.
    destruct (plain_or_special (piece_kind p)) as [?|[?|?]]; [by left|by right; left|].
    right; right. by apply Hp.
  - constructor; [|done]. by left.
Qed.

(** C8: for every piece the lexer produces and every MatchState of the
    recognizer, the edge the state selects for the piece is the first edge of
    its list whose kind is the kind of the piece and whose literal text, if
    it has one, is the text of the piece; in particular the selected edge
    has the kind of the piece and, when it carries a text, the text of the
    piece. *)
Theorem match_state_selects_first_matching_edge (unicode_word : ascii → bool)
    (fname : option string) (content : string) (toks : list Piece) (p : Piece)
    (num : nat) (expected : string) (edges : list Edge) :
  tokenize unicode_word fname content = Some toks →
  p ∈ toks →
  MatchState num expected edges ∈ STATES →
  select_edge edges p = List.find (λ e, edge_matches_spec e p) edges
  ∧ ∀ e, select_edge edges p = Some e →
         edge_kind e = piece_kind p
         ∧ ∀ t, edge_text e = Some t → t = get_text p.
Proof.
  intros Ht Hp Hs.
  pose proof (lexer_pieces_recognizable _ _ _ _ Ht) as Hall.
  rewrite Forall_forall in Hall. specialize (Hall p Hp).
  pose proof (select_edge_agrees _ _ _ _ Hs Hall) as Heq.
  split; [done|]. intros e. rewrite Heq. intros [_ Hm]%find_some.
  unfold edge_matches_spec in Hm. apply andb_true_iff in Hm as [Hk Hm].
  apply bool_decide_eq_true in Hk. split; [done|].
  intros t Het. rewrite Het in Hm. by apply bool_decide_eq_true in Hm.
Qed.

(** ** The directive recognizer on input without directives *)

(** The self-check of the table passes, and the states the recognizer visits
    on input without directives are the ones of the table. *)
Lemma setup_states_ok :
  ∃ available,
    setup_states STATES = Ok available
    ∧ available !! STATE1 = the_state STATE1
    ∧ available !! STATE2 = the_state STATE2
    ∧ available !! STATE99 = the_state STATE99.
Proof.
  destruct (setup_states STATES) as [available|e] eqn:H.
  - exists available. split; [done|].
    assert (Ok available = setup_states STATES) as Hs by done.
    injection Hs as ->. repeat split; vm_compute; reflexivity.
  - exfalso. revert H. vm_compute. discriminate.
Qed.

Lemma edge_matches_spec_fits (e : Edge) (p : Piece) :
  edge_matches_spec e p = edge_fits e (piece_kind p) (get_text p).
Proof. reflexivity. Qed.

Lemma find_plain_edge (at_line_start : bool) (k : PieceKind) (t : string) :
  (k = PIECE_IDENTIFIER →
   text_is "endmacro" t = false
   ∧ (at_line_start = true → text_is "define" t = false ∧ text_is "include" t = false)) →
  List.find (λ e, edge_fits e k t) (edges_of (line_state at_line_start))
  = Some (mkEdge k None (plain_goto at_line_start k) None None).
Proof.
  intros H. destruct at_line_start, k; try reflexivity.
  - destruct H as [He Hd]; [done|]. destruct Hd as [Hd Hi]; [done|].
    let edges := eval vm_compute in (edges_of (line_state true)) in
    change (edges_of (line_state true)) with edges.
    unfold edge_fits. cbn. rewrite He, Hd, Hi. reflexivity.
  - destruct H as [He _]; [done|].
    let edges := eval vm_compute in (edges_of (line_state false)) in
    change (edges_of (line_state false)) with edges.
    unfold edge_fits. cbn. rewrite He. reflexivity.
Qed.

(** A piece that opens no directive is passed on, and the recognizer moves
    between its two states without an accumulator. *)
Lemma match_step_plain (available : gmap nat State) (at_line_start : bool) (p : Piece) :
  available !! STATE1 = the_state STATE1 →
  available !! STATE2 = the_state STATE2 →
  recognizable p → piece_kind p ≠ PIECE_EOF →
  is_word_piece "endmacro" p = false →
  at_line_start && (is_word_piece "define" p || is_word_piece "include" p) = false →
  match_step available (line_state at_line_start)
    (edges_of (line_state at_line_start)) None p
  = ([MPiece p], Ok (None, line_state (next_at_line_start at_line_start p))).
Proof.
  intros H1 H2 Hrec Hneof Hend Hdef.
  assert (∃ num expected,
            MatchState num expected (edges_of (line_state at_line_start)) ∈ STATES)
    as (num & expected & Hin).
  { destruct at_line_start; eexists _, _; unfold STATES; rewrite !elem_of_cons;
      [left|do 2 right; left]; reflexivity. }
  unfold match_step. rewrite (select_edge_agrees _ _ _ _ Hin Hrec).
  erewrite find_ext_in; [|intros e _; apply edge_matches_spec_fits].
  rewrite find_plain_edge.
  2:{ intros Hk. unfold is_word_piece in Hend, Hdef. rewrite Hk in Hend, Hdef.
      rewrite bool_decide_eq_true_2 in Hend, Hdef by done. simpl in Hend, Hdef.
      unfold text_is. split.
      - apply bool_decide_eq_false. apply bool_decide_eq_false in Hend. congruence.
      - intros ->. simpl in Hdef. apply orb_false_iff in Hdef as [Hd Hi].
        apply bool_decide_eq_false in Hd. apply bool_decide_eq_false in Hi.
        split; apply bool_decide_eq_false; congruence. }
  cbn [edge_sequence_action edge_store edge_goto sequence_action app].
  unfold next_at_line_start, plain_goto.
  destruct at_line_start, (piece_kind p); try done;
    rewrite ?H1, ?H2; reflexivity.
Qed.

Lemma line_state_is_match (at_line_start : bool) :
  ∃ num, line_state at_line_start
         = MatchState num "none" (edges_of (line_state at_line_start)).
Proof. destruct at_line_start; eexists; reflexivity. Qed.

(** The end-of-file piece is passed on and leads to the terminal state. *)
Lemma match_step_eof (available : gmap nat State) (at_line_start : bool) (eof : Piece) :
  available !! STATE99 = the_state STATE99 →
  piece_kind eof = PIECE_EOF →
  match_step available (line_state at_line_start)
    (edges_of (line_state at_line_start)) None eof
  = ([MPiece eof], Ok (None, state_at STATE99)).
Proof.
  intros H99 Hk.
  assert (∃ num expected,
            MatchState num expected (edges_of (line_state at_line_start)) ∈ STATES)
    as (num & expected & Hin).
  { destruct at_line_start; eexists _, _; unfold STATES; rewrite !elem_of_cons;
      [left|do 2 right; left]; reflexivity. }
  unfold match_step. rewrite (select_edge_agrees _ _ _ _ Hin).
  2:{ left. by rewrite Hk. }
  erewrite find_ext_in; [|intros e _; apply edge_matches_spec_fits].
  rewrite find_plain_edge by (by rewrite Hk).
  rewrite Hk. cbn [edge_sequence_action edge_store edge_goto sequence_action app plain_goto].
  by rewrite H99.
Qed.

Lemma match_loop_match_state (fuel : nat) (available : gmap nat State)
    (state : State) (num : nat) (expected : string) (edges : list Edge)
    (sequence : option Sequence) (piece : Piece) (stream : list Piece) :
  state = MatchState num expected edges →
  verify_expected_sequence sequence expected = true →
  match_loop (S fuel) available (Some state) sequence (piece :: stream)
  = match match_step available state edges sequence piece with
    | (yielded, Err e) => (yielded, Raised e)
    | (yielded, Ok (sequence', next_state)) =>
        let '(rest, ending) :=
          match_loop fuel available (Some next_state) sequence' stream in
        (yielded ++ rest, ending)
    end.
Proof. intros -> Hv. cbn [match_loop expected_sequence]. by rewrite Hv. Qed.

(** Without directives the recognizer yields the pieces it is given, in
    order, and returns. *)
Lemma match_loop_plain (available : gmap nat State) (at_line_start : bool)
    (ps : list Piece) (eof : Piece) (fuel : nat) :
  available !! STATE1 = the_state STATE1 →
  available !! STATE2 = the_state STATE2 →
  available !! STATE99 = the_state STATE99 →
  Forall recognizable ps → Forall (λ p, piece_kind p ≠ PIECE_EOF) ps →
  directive_free at_line_start ps = true →
  piece_kind eof = PIECE_EOF →
  length ps + 3 ≤ fuel →
  match_loop fuel available (Some (line_state at_line_start)) None (ps ++ [eof])
  = (MPiece <$> (ps ++ [eof]), Returned).
Proof.
  intros H1 H2 H99. revert at_line_start fuel.
  induction ps as [|p ps IH]; intros at_line_start fuel Hrec Hneof Hfree Heof Hfuel.
  - destruct fuel as [|[|[|fuel]]]; [simpl in Hfuel; lia..|].
    destruct (line_state_is_match at_line_start) as [num Hst].
    cbn [app]. rewrite (match_loop_match_state _ _ _ _ _ _ _ _ _ Hst) by done.
    rewrite match_step_eof by done.
    change (state_at STATE99) with (FinishState STATE99 "none" None).
    reflexivity.
  - destruct fuel as [|fuel]; [simpl in Hfuel; lia|].
    apply Forall_cons in Hrec as [Hp Hrec]. apply Forall_cons in Hneof as [Hpn Hneof].
    cbn [directive_free] in Hfree.
    apply andb_true_iff in Hfree as [Hfree Hrest].
    apply andb_true_iff in Hfree as [He Hd].
    apply negb_true_iff in He, Hd.
    destruct (line_state_is_match at_line_start) as [num Hst].
    cbn [app]. rewrite (match_loop_match_state _ _ _ _ _ _ _ _ _ Hst) by done.
    rewrite match_step_plain by done.
    rewrite IH; [done|done|done|done|done|simpl in Hfuel; lia].
Qed.

Lemma match_sequence_plain (ps : list Piece) (eof : Piece) :
  Forall recognizable ps → Forall (λ p, piece_kind p ≠ PIECE_EOF) ps →
  directive_free true ps = true → piece_kind eof = PIECE_EOF →
  match_sequence (ps ++ [eof]) = (MPiece <$> (ps ++ [eof]), Returned).
Proof.
  intros Hrec Hneof Hfree Heof. unfold match_sequence.
  destruct setup_states_ok as (available & -> & H1 & H2 & H99).
  rewrite H1. change (the_state STATE1) with (Some (line_state true)).
  apply match_loop_plain; try done. rewrite length_app. simpl. lia.
Qed.

(** ** Reading and expanding input without directives and calls *)

Lemma read_items_plain (include : option string → MacroTable → list IncludePiece →
                                  list Event * Ending * MacroTable)
    (toks : list Piece) (macros : MacroTable) (includes : list IncludePiece) :
  read_items include (MPiece <$> toks) Returned None macros includes
  = (EvPiece <$> toks, Returned, macros).
Proof.
  induction toks as [|p toks IH]; [done|]. cbn. by rewrite IH.
Qed.

Lemma expand_stream_plain (fuel : nat) (toks : list Piece)
    (expand_nesting : list Frame) (sh : Shared) :
  macro_definitions sh = ∅ → call_free toks = true → length toks < fuel →
  expand_stream fuel (mkStreamGetter (Some (EvPiece <$> toks, Returned))) ∅
    expand_nesting sh
  = (toks, Ok (mkStreamGetter None, expand_nesting, sh)).
Proof.
  intros Hm. revert fuel. induction toks as [|p toks IH]; intros fuel Hfree Hfuel.
  - destruct fuel as [|fuel]; [simpl in Hfuel; lia|]. reflexivity.
  - destruct fuel as [|fuel]; [simpl in Hfuel; lia|].
    cbn [call_free forallb] in Hfree. apply andb_true_iff in Hfree as [Hp Hfree].
    apply negb_true_iff in Hp. unfold is_word_piece in Hp.
    specialize (IH fuel Hfree ltac:(simpl in Hfuel; lia)).
    cbn [expand_stream]. unfold get at 1, StreamGetter_get at 1.
    cbn [stream fmap list_fmap stream_next].
    change (list_fmap Piece Event EvPiece toks) with (EvPiece <$> toks).
    destruct (decide (piece_kind p = PIECE_IDENTIFIER)) as [Hid|Hid].
    + rewrite (bool_decide_eq_false_2 (piece_kind p ≠ PIECE_IDENTIFIER)) by auto.
      rewrite lookup_empty, Hm, lookup_empty.
      rewrite (bool_decide_eq_true_2 (None = None)) by done.
      rewrite Hid in Hp. rewrite bool_decide_eq_true_2 in Hp by done. simpl in Hp.
      apply bool_decide_eq_false in Hp.
      rewrite (bool_decide_eq_true_2 (get_text p ≠ "glue")) by done.
      cbn [andb]. rewrite IH. reflexivity.
    + rewrite (bool_decide_eq_true_2 (piece_kind p ≠ PIECE_IDENTIFIER)) by done.
      rewrite IH. reflexivity.
Qed.

Lemma written_text_pieces (ps : list Piece) (eof : Piece) :
  Forall (λ p, piece_kind p ≠ PIECE_EOF) ps → piece_kind eof = PIECE_EOF →
  written_text (ps ++ [eof]) = concat_text ps.
Proof.
  intros Hps Heof. unfold written_text. rewrite filter_app.
  rewrite (filter_cons_False _ eof) by (intros H; by apply H).
  rewrite filter_nil, app_nil_r. f_equal. induction Hps as [|p ps Hp _ IH]; [done|].
  rewrite filter_cons_True by done. by rewrite IH.
Qed.

Lemma directive_free_app (at_line_start : bool) (ps qs : list Piece) :
  directive_free at_line_start (ps ++ qs) = true → directive_free at_line_start ps = true.
Proof.
  revert at_line_start. induction ps as [|p ps IH]; intros at_line_start; [done|].
  cbn [app directive_free]. intros [-> H]%andb_true_iff. by rewrite (IH _ H).
Qed.


(** ** Argument parsing *)

Section ArgumentProperties.

Context {G : Type} `{!PieceGetter G}.

Lemma pulls_app (g : G) (sh : Shared) (ps qs : list Piece) (g1 : G) (sh1 : Shared)
    (g' : G) (sh' : Shared) :
  pulls g sh ps g1 sh1 → pulls g1 sh1 qs g' sh' → pulls g sh (ps ++ qs) g' sh'.
Proof. induction 1; [done|]. intros. econstructor; eauto. Qed.

Lemma pulls_app_inv (g : G) (sh : Shared) (ps qs : list Piece) (g' : G) (sh' : Shared) :
  pulls g sh (ps ++ qs) g' sh' →
  ∃ g1 sh1, pulls g sh ps g1 sh1 ∧ pulls g1 sh1 qs g' sh'.
Proof.
  revert g sh. induction ps as [|p ps IH]; intros g sh H.
  - exists g, sh. split; [constructor|done].
  - inversion H as [|? ? ? g1 sh1 ? ? ? Hget Hrest]; subst.
    destruct (IH _ _ Hrest) as (g2 & sh2 & ? & ?).
    exists g2, sh2. split; [econstructor; eauto|done].
Qed.

Lemma pulls_snoc (g : G) (sh : Shared) (ps : list Piece) (p : Piece) (g1 : G)
    (sh1 : Shared) (g' : G) (sh' : Shared) :
  pulls g sh ps g1 sh1 → get g1 sh1 = Got p g' sh' → pulls g sh (ps ++ [p]) g' sh'.
Proof. intros H Hget. eapply pulls_app; [done|]. econstructor; [done|constructor]. Qed.

Lemma matching_close_lt (level : nat) (ps : list Piece) (j : nat) :
  matching_close level ps = Some j → j < length ps.
Proof.
  revert level j. induction ps as [|p ps IH]; intros level j; simpl; [done|].
  destruct (level_after level p =? 0); [intros [= <-]; lia|].
  destruct (matching_close (level_after level p) ps) as [k|] eqn:Hk; [|done].
  intros [= <-]. apply IH in Hk. lia.
Qed.

Lemma matching_close_app_l (level : nat) (ps qs : list Piece) (j : nat) :
  matching_close level ps = Some j → matching_close level (ps ++ qs) = Some j.
Proof.
  revert level j. induction ps as [|p ps IH]; intros level j; simpl; [done|].
  destruct (level_after level p =? 0); [done|].
  destruct (matching_close (level_after level p) ps) as [k|] eqn:Hk; [|done].
  intros [= <-]. by rewrite (IH _ _ Hk).
Qed.

Lemma matching_close_prefix (level : nat) (ps qs : list Piece) (j : nat) :
  matching_close level (ps ++ qs) = Some j → j < length ps →
  matching_close level ps = Some j.
Proof.
  revert level j. induction ps as [|p ps IH]; intros level j; simpl; [lia|].
  destruct (level_after level p =? 0); [done|].
  destruct (matching_close (level_after level p) (ps ++ qs)) as [k|] eqn:Hk; [|done].
  intros [= <-] Hlt. rewrite (IH _ _ Hk); [done|lia].
Qed.

(** [store_til_matching_close] returns without error exactly on the pieces
    up to the matching closing parenthesis, and stores them all. *)
Lemma store_til_matching_close_loop_sound (fuel level : nat) (g : G) (sh : Shared)
    (pieces pieces' : list Piece) (g' : G) (sh' : Shared) :
  0 < level →
  store_til_matching_close_loop fuel level g sh pieces = Ok (None, pieces', g', sh') →
  ∃ ps, pieces' = pieces ++ ps ∧ pulls g sh ps g' sh' ∧ closes_at_end level ps
        ∧ Forall (λ p, piece_kind p ≠ PIECE_EOF) ps.
Proof.
  revert level g sh pieces.
  induction fuel as [|fuel IH]; intros level g sh pieces Hlevel; simpl.
  { destruct level; [lia|done]. }
  destruct level as [|level]; [lia|]. cbn [Nat.eqb].
  destruct (get g sh) as [p g1 sh1| |] eqn:Hget; [|done..].
  case_bool_decide as Heof; [done|].
  change (if bool_decide (piece_kind p = PIECE_PAROPEN) then S level + 1
          else if bool_decide (piece_kind p = PIECE_PARCLOSE) then S level - 1
               else S level) with (level_after (S level) p).
  destruct (level_after (S level) p) as [|level'] eqn:Hl.
  - destruct fuel; simpl; intros [= <- <- <-].
    all: exists [p]; repeat split; try done.
    all: try (econstructor; [done|constructor]).
    all: try (unfold closes_at_end; simpl; by rewrite Hl).
    all: by repeat constructor.
  - intros H. apply IH in H as (ps & -> & Hp & Hc & Hne); [|lia].
    exists (p :: ps). rewrite <- app_assoc. repeat split; try done.
    + econstructor; eauto.
    + unfold closes_at_end in *. simpl. rewrite Hl. cbn [Nat.eqb]. rewrite Hc.
      apply matching_close_lt in Hc. simpl. f_equal. lia.
    + by constructor.
Qed.

Lemma store_til_matching_close_loop_complete (fuel level : nat) (g : G) (sh : Shared)
    (pieces ps : list Piece) (g' : G) (sh' : Shared) :
  0 < level → length ps < fuel →
  pulls g sh ps g' sh' → closes_at_end level ps →
  Forall (λ p, piece_kind p ≠ PIECE_EOF) ps →
  store_til_matching_close_loop fuel level g sh pieces = Ok (None, pieces ++ ps, g', sh').
Proof.
  revert fuel level g sh pieces.
  induction ps as [|p ps IH]; intros fuel level g sh pieces Hlevel Hfuel Hp Hc Hne.
  { by unfold closes_at_end in Hc. }
  destruct fuel as [|fuel]; [simpl in Hfuel; lia|].
  inversion Hp as [|? ? ? g1 sh1 ? ? ? Hget Hrest]; subst.
  apply Forall_cons in Hne as [Hpe Hne].
  simpl. destruct level as [|level]; [lia|]. cbn [Nat.eqb]. rewrite Hget.
  rewrite bool_decide_eq_false_2 by done.
  change (if bool_decide (piece_kind p = PIECE_PAROPEN) then S level + 1
          else if bool_decide (piece_kind p = PIECE_PARCLOSE) then S level - 1
               else S level) with (level_after (S level) p).
  unfold closes_at_end in Hc. simpl in Hc.
  destruct (level_after (S level) p) as [|level'] eqn:Hl.
  - cbn [Nat.eqb] in Hc. injection Hc as Hc.
    assert (ps = []) as -> by (destruct ps; [done|simpl in Hc; lia]).
    inversion Hrest; subst. by destruct fuel.
  - cbn [Nat.eqb] in Hc.
    destruct (matching_close (S level') ps) as [k|] eqn:Hk; [|done].
    injection Hc as Hc. rewrite (IH fuel (S level') g1 sh1 (pieces ++ [p])); try done.
    + by rewrite <- app_assoc.
    + lia.
    + simpl in Hfuel. lia.
    + unfold closes_at_end. rewrite Hk. f_equal. apply matching_close_lt in Hk. lia.
Qed.

End ArgumentProperties.

(** *** Whitespace around an argument *)

Lemma strip_trailing_cons (p : Piece) (l : list Piece) :
  strip_trailing (p :: l)
  = match strip_trailing l with
    | [] => if is_blank p then [] else [p]
    | kept => p :: kept
    end.
Proof. reflexivity. Qed.

Lemma strip_trailing_blank (l : list Piece) :
  Forall (λ p, is_blank p = true) l → strip_trailing l = [].
Proof.
  induction 1 as [|p l Hp _ IH]; [done|]. by rewrite strip_trailing_cons, IH, Hp.
Qed.

Lemma strip_trailing_decompose (l : list Piece) :
  ∃ blanks, l = strip_trailing l ++ blanks ∧ Forall (λ p, is_blank p = true) blanks.
Proof.
  induction l as [|p l (blanks & IH & Hb)]; [by exists []|].
  rewrite strip_trailing_cons. destruct (strip_trailing l) as [|q kept] eqn:Hs.
  - destruct (is_blank p) eqn:Hp.
    + exists (p :: blanks). simpl in *. split; [by f_equal|by constructor].
    + exists blanks. simpl in *. split; [by f_equal|done].
  - exists blanks. split; [|done]. simpl. by f_equal.
Qed.

Lemma strip_trailing_app (l blanks : list Piece) (x : Piece) :
  is_blank x = false → Forall (λ p, is_blank p = true) blanks →
  strip_trailing (l ++ x :: blanks) = l ++ [x].
Proof.
  intros Hx Hb. induction l as [|p l IH]; simpl.
  - by rewrite (strip_trailing_blank _ Hb), Hx.
  - rewrite IH. by destruct l.
Qed.

Lemma strip_trailing_app_keeps (l m : list Piece) :
  strip_trailing l ≠ [] → strip_trailing (l ++ m) ≠ [].
Proof.
  induction l as [|p l IH]; [done|]. cbn [app]. rewrite !strip_trailing_cons.
  destruct (strip_trailing l) as [|q kept] eqn:Hs.
  - destruct (is_blank p) eqn:Hp; [done|]. intros _.
    destruct (strip_trailing (l ++ m)); by rewrite ?Hp.
  - intros _. destruct (strip_trailing (l ++ m)) eqn:Hm; [|done].
    by destruct IH.
Qed.

Lemma strip_trailing_head (l : list Piece) (p : Piece) (kept : list Piece) :
  strip_trailing l = p :: kept → ∃ rest, l = p :: rest.
Proof.
  destruct (strip_trailing_decompose l) as (blanks & Hl & _).
  intros Hs. rewrite Hs in Hl. rewrite Hl. by eexists.
Qed.

Section StoreArgument.

Context {G : Type} `{!PieceGetter G}.

Lemma argument_state_initial : argument_state None true [].
Proof. split; done. Qed.

Lemma argument_state_plain (first_close : option nat) (strip_leading : bool)
    (argument : list Piece) (p : Piece) :
  argument_state first_close strip_leading argument →
  piece_kind p ≠ PIECE_PAROPEN → strip_leading = false ∨ is_blank p = false →
  argument_state first_close false (argument ++ [p]).
Proof.
  intros [Hl Hn Hg] Hp Hkeep. split.
  - split; [done|]. by destruct argument.
  - intros Hfc q rest. destruct argument as [|a argument]; simpl.
    + by intros [= <- _].
    + intros [= <- _]. by eapply Hn.
  - intros i Hfc. destruct (Hg i Hfc) as [Hne Hm]. split.
    + by apply strip_trailing_app_keeps.
    + intros q rest. destruct argument as [|a argument]; [done|]. simpl.
      intros [= <- <-] Hq. destruct (Hm a argument eq_refl Hq) as [? Hc].
      split; [done|]. by apply matching_close_app_l.
Qed.

Lemma argument_state_group (first_close : option nat) (strip_leading : bool)
    (argument : list Piece) (p : Piece) (group : list Piece) :
  argument_state first_close strip_leading argument →
  piece_kind p = PIECE_PAROPEN → closes_at_end 1 group →
  argument_state
    (match first_close with
     | None => Some (length ((argument ++ [p]) ++ group) - 1)
     | Some _ => first_close
     end)
    false ((argument ++ [p]) ++ group).
Proof.
  intros [Hl Hn Hg] Hp Hc.
  assert (is_blank p = false) as Hnb by (unfold is_blank; by rewrite Hp).
  assert (strip_trailing ((argument ++ [p]) ++ group) ≠ []) as Hkeeps.
  { apply strip_trailing_app_keeps. rewrite (strip_trailing_app _ [] p) by done.
    by destruct argument. }
  split.
  - split; [done|]. by destruct argument.
  - by destruct first_close.
  - intros i Hi. split; [done|]. intros q rest Hq Hqk.
    destruct first_close as [j|].
    + injection Hi as ->. destruct (Hg i eq_refl) as [_ Hm].
      destruct argument as [|a argument]; [by destruct (Hg i eq_refl)|].
      simpl in Hq. injection Hq as <- <-.
      destruct (Hm a argument eq_refl Hqk) as [? Hmc]. split; [done|].
      rewrite <- app_assoc. by apply matching_close_app_l.
    + injection Hi as <-. destruct argument as [|a argument].
      * simpl in Hq. injection Hq as <- <-. pose proof (matching_close_lt _ _ _ Hc).
        simpl. split; [lia|]. unfold closes_at_end in Hc. rewrite Hc. f_equal. lia.
      * simpl in Hq. injection Hq as <- <-. by destruct (Hn eq_refl a argument eq_refl).
Qed.

(** The end of an argument: the outer parentheses are dropped exactly when
    the argument, without its trailing whitespace, is wrapped. *)
Lemma finish_argument_spec (first_close : option nat) (strip_leading : bool)
    (argument : list Piece) (piece : Piece) :
  argument_state first_close strip_leading argument →
  let raw := strip_trailing argument in
  finish_argument first_close argument piece
  = Ok (Argument (if wrapped raw then removelast (tail raw) else raw) (wrapped raw) piece).
Proof.
  intros [Hl Hn Hg] raw. unfold finish_argument. fold raw.
  destruct first_close as [i|].
  - destruct (Hg i eq_refl) as [Hne Hm]. fold raw in Hne.
    destruct raw as [|p rest] eqn:Hraw; [done|].
    destruct (strip_trailing_decompose argument) as (blanks & Harg & Hb).
    fold raw in Harg. rewrite Hraw in Harg. simpl in Harg.
    unfold wrapped. destruct (decide (piece_kind p = PIECE_PAROPEN)) as [Hp|Hp].
    + rewrite !(bool_decide_eq_true_2 (piece_kind p = PIECE_PAROPEN)) by done.
      destruct (Hm p (rest ++ blanks) Harg Hp) as [Hi Hc]. cbn [andb length].
      destruct (decide (length rest = i)) as [Hlen|Hlen].
      * rewrite bool_decide_eq_true_2 by lia.
        rewrite bool_decide_eq_true_2; [done|].
        rewrite (matching_close_prefix _ _ _ _ Hc) by lia. f_equal. lia.
      * rewrite bool_decide_eq_false_2 by lia.
        rewrite bool_decide_eq_false_2; [done|].
        intros Hr. pose proof (matching_close_lt _ _ _ Hr).
        rewrite (matching_close_app_l _ _ blanks _ Hr) in Hc.
        injection Hc as Hc. lia.
    + by rewrite !(bool_decide_eq_false_2 (piece_kind p = PIECE_PAROPEN)) by done.
  - assert (wrapped raw = false) as ->; [|done].
    destruct raw as [|p rest] eqn:Hraw; [done|].
    destruct (strip_trailing_head _ _ _ Hraw) as [rest' Harg].
    unfold wrapped. by rewrite bool_decide_eq_false_2 by (by eapply Hn).
Qed.

Lemma extend_keep (argument : list Piece) (p : Piece) (more : list Piece) :
  argument ≠ [] ∨ is_blank p = false →
  extend argument (p :: more) = extend (argument ++ [p]) more.
Proof.
  intros H. destruct argument as [|a argument]; simpl.
  - destruct H as [?| ->]; done.
  - by rewrite <- app_assoc.
Qed.

Lemma extend_group (argument : list Piece) (group more : list Piece) :
  argument ≠ [] → extend argument (group ++ more) = extend (argument ++ group) more.
Proof.
  intros H. destruct argument as [|a argument]; [done|]. simpl. by rewrite <- app_assoc.
Qed.

Lemma blank_kind (p : Piece) :
  is_blank p = true →
  piece_kind p ≠ PIECE_EOF ∧ piece_kind p ≠ PIECE_COMMA
  ∧ piece_kind p ≠ PIECE_PARCLOSE ∧ piece_kind p ≠ PIECE_PAROPEN.
Proof.
  unfold is_blank. intros [H|H]%orb_true_iff; apply bool_decide_eq_true in H;
    rewrite H; done.
Qed.

(** Whatever [store_argument] answers as an argument, it has pulled the
    pieces of the argument and the piece that ends it, and it has dropped
    the outer parentheses exactly when the argument was wrapped. *)
Lemma store_argument_loop_sound (fuel : nat) (first_close : option nat)
    (strip_leading : bool) (argument : list Piece) (g : G) (sh : Shared)
    (argpieces : list Piece) (stripped : bool) (piece : Piece) (g' : G) (sh' : Shared) :
  argument_state first_close strip_leading argument →
  store_argument_loop fuel first_close strip_leading argument g sh
  = Ok (Argument argpieces stripped piece, g', sh') →
  ∃ more,
    pulls g sh (more ++ [piece]) g' sh'
    ∧ (piece_kind piece = PIECE_COMMA ∨ piece_kind piece = PIECE_PARCLOSE)
    ∧ let raw := strip_trailing (extend argument more) in
      stripped = wrapped raw
      ∧ argpieces = (if wrapped raw then removelast (tail raw) else raw).
Proof.
  revert first_close strip_leading argument g sh.
  induction fuel as [|fuel IH]; intros first_close strip_leading argument g sh Hst;
    [done|].
  cbn [store_argument_loop].
  destruct (get g sh) as [p g1 sh1| |] eqn:Hget; [|done..].
  case_bool_decide as Heof; [done|].
  destruct (bool_decide (piece_kind p = PIECE_COMMA)
            || bool_decide (piece_kind p = PIECE_PARCLOSE)) eqn:Hend.
  { rewrite (finish_argument_spec _ _ _ _ Hst). intros [= <- <- <- <- <-].
    exists []. split; [econstructor; [done|constructor]|]. split.
    - apply orb_true_iff in Hend as [H|H]; apply bool_decide_eq_true in H; auto.
    - assert (extend argument [] = argument) as ->; [|done].
      destruct argument; [done|]. simpl. by rewrite app_nil_r. }
  apply orb_false_iff in Hend as [Hc1 Hc2].
  destruct (decide (piece_kind p = PIECE_PAROPEN)) as [Hopen|Hopen].
  - (* a nested group *)
    assert (is_blank p = false) as Hnb by (unfold is_blank; by rewrite Hopen).
    assert ((if negb strip_leading then (argument ++ [p], strip_leading)
             else if negb (is_blank p) then (argument ++ [p], false)
                  else (argument, strip_leading))
            = (argument ++ [p], false)) as ->.
    { destruct strip_leading; simpl; by rewrite ?Hnb. }
    rewrite (bool_decide_eq_true_2 _ Hopen).
    destruct (store_til_matching_close fuel g1 sh1 (argument ++ [p]))
      as [[[[[error|] argument2] g2] sh2]|] eqn:Hstore; [done| |done].
    apply store_til_matching_close_loop_sound in Hstore
      as (group & -> & Hpulls & Hcloses & _); [|lia].
    intros Hloop.
    apply IH in Hloop as (more & Hmore & Hkind & Hraw);
      [|by apply (argument_state_group _ _ _ _ _ Hst)].
    exists (p :: group ++ more). split.
    { cbn [app]. econstructor; [done|]. rewrite <- app_assoc.
      by eapply pulls_app. }
    split; [done|].
    rewrite extend_keep by auto. rewrite extend_group by (by destruct argument).
    done.
  - (* a piece of the argument, or leading whitespace *)
    rewrite (bool_decide_eq_false_2 _ Hopen).
    destruct strip_leading; [destruct (is_blank p) eqn:Hb|]; cbn [negb].
    + (* leading whitespace *)
      intros Hloop. apply IH in Hloop as (more & Hmore & Hkind & Hraw); [|done].
      exists (p :: more). split; [econstructor; eauto|]. split; [done|].
      assert (argument = []) as -> by (by apply Hst). simpl. rewrite Hb. done.
    + intros Hloop.
      apply IH in Hloop as (more & Hmore & Hkind & Hraw);
        [|apply (argument_state_plain _ _ _ _ Hst); auto].
      exists (p :: more). split; [econstructor; eauto|]. split; [done|].
      by rewrite extend_keep by auto.
    + intros Hloop.
      apply IH in Hloop as (more & Hmore & Hkind & Hraw);
        [|apply (argument_state_plain _ _ _ _ Hst); auto].
      exists (p :: more). split; [econstructor; eauto|]. split; [done|].
      rewrite extend_keep; [done|]. left. intros ->.
      by pose proof (proj2 (state_leading _ _ _ Hst) eq_refl).
Qed.

(** Whitespace and newlines: skipped in front of an argument, stored
    inside one. *)
Lemma store_argument_loop_blanks (fuel : nat) (first_close : option nat)
    (strip_leading : bool) (argument : list Piece) (g : G) (sh : Shared)
    (blanks : list Piece) (g1 : G) (sh1 : Shared) :
  pulls g sh blanks g1 sh1 → Forall (λ p, is_blank p = true) blanks →
  store_argument_loop (length blanks + fuel) first_close strip_leading argument g sh
  = store_argument_loop fuel first_close strip_leading
      (if strip_leading then argument else argument ++ blanks) g1 sh1.
Proof.
  intros Hpulls. revert argument.
  induction Hpulls as [|g sh p g1 sh1 ps g' sh' Hget _ IH]; intros argument Hb.
  - simpl. destruct strip_leading; by rewrite ?app_nil_r.
  - apply Forall_cons in Hb as [Hp Hb]. destruct (blank_kind _ Hp) as (? & ? & ? & ?).
    cbn [length Nat.add store_argument_loop]. rewrite Hget.
    rewrite !bool_decide_eq_false_2 by done. cbn [orb].
    rewrite Hp. cbn [negb]. destruct strip_leading; cbn [negb].
    + by rewrite IH.
    + rewrite IH by done. by rewrite <- app_assoc.
Qed.

(** An argument that is one parenthesised group, with whitespace around it
    at most, loses the outer pair and keeps what is inside, whitespace and
    commas included. *)
Lemma store_argument_wrapped (fuel : nat) (g : G) (sh : Shared)
    (lead : list Piece) (open : Piece) (inner : list Piece) (close : Piece)
    (trail : list Piece) (piece : Piece) (g' : G) (sh' : Shared) :
  pulls g sh (lead ++ [open] ++ (inner ++ [close]) ++ trail ++ [piece]) g' sh' →
  Forall (λ p, is_blank p = true) lead →
  piece_kind open = PIECE_PAROPEN →
  closes_at_end 1 (inner ++ [close]) →
  Forall (λ p, piece_kind p ≠ PIECE_EOF) (inner ++ [close]) →
  piece_kind close = PIECE_PARCLOSE →
  Forall (λ p, is_blank p = true) trail →
  piece_kind piece = PIECE_COMMA ∨ piece_kind piece = PIECE_PARCLOSE →
  length (lead ++ [open] ++ (inner ++ [close]) ++ trail ++ [piece]) < fuel →
  store_argument fuel g sh = Ok (Argument inner true piece, g', sh').
Proof.
  intros Hpulls Hlead Hopen Hcloses Hneof Hclose Htrail Hpiece Hfuel.
  apply pulls_app_inv in Hpulls as (g1 & sh1 & Hp1 & Hpulls).
  apply pulls_app_inv in Hpulls as (g2 & sh2 & Hp2 & Hpulls).
  apply pulls_app_inv in Hpulls as (g3 & sh3 & Hp3 & Hpulls).
  apply pulls_app_inv in Hpulls as (g4 & sh4 & Hp4 & Hp5).
  inversion Hp2 as [|? ? ? ? ? ? ? ? Hget2 Hnil2]; subst. inversion Hnil2; subst.
  inversion Hp5 as [|? ? ? ? ? ? ? ? Hget5 Hnil5]; subst. inversion Hnil5; subst.
  rewrite !length_app in Hfuel. cbn [length] in Hfuel.
  unfold store_argument.
  replace fuel with (length lead + (fuel - length lead)) by lia.
  rewrite (store_argument_loop_blanks _ _ _ _ _ _ _ _ _ Hp1 Hlead).
  destruct (fuel - length lead) as [|fuel1] eqn:Hf1; [lia|].
  cbn [store_argument_loop]. rewrite Hget2.
  assert (is_blank open = false) as Hnb by (unfold is_blank; by rewrite Hopen).
  rewrite Hopen. cbn [bool_decide decide_rel negb orb]. rewrite Hnb. cbn [negb app].
  rewrite (bool_decide_eq_false_2 (PIECE_PAROPEN = PIECE_EOF)) by done.
  rewrite (bool_decide_eq_false_2 (PIECE_PAROPEN = PIECE_COMMA)) by done.
  rewrite (bool_decide_eq_false_2 (PIECE_PAROPEN = PIECE_PARCLOSE)) by done.
  rewrite (bool_decide_eq_true_2 (PIECE_PAROPEN = PIECE_PAROPEN)) by done.
  cbn [orb]. unfold store_til_matching_close.
  rewrite (store_til_matching_close_loop_complete fuel1 1 g2 sh2 [open]
             (inner ++ [close]) g3 sh3);
    [|lia|rewrite length_app; simpl; lia|done..].
  replace fuel1 with (length trail + (fuel1 - length trail)) by lia.
  rewrite (store_argument_loop_blanks _ _ _ _ _ _ _ _ _ Hp4 Htrail).
  destruct (fuel1 - length trail) as [|fuel2] eqn:Hf2; [lia|].
  cbn [store_argument_loop]. rewrite Hget5.
  assert (piece_kind piece ≠ PIECE_EOF) by (destruct Hpiece as [-> | ->]; done).
  rewrite (bool_decide_eq_false_2 (piece_kind piece = PIECE_EOF)) by done.
  assert (bool_decide (piece_kind piece = PIECE_COMMA)
          || bool_decide (piece_kind piece = PIECE_PARCLOSE) = true) as ->.
  { destruct Hpiece as [-> | ->]; done. }
  unfold finish_argument.
  assert (is_blank close = false) as Hcb by (unfold is_blank; by rewrite Hclose).
  replace (([open] ++ inner ++ [close]) ++ trail)
    with ((open :: inner) ++ close :: trail) by (simpl; by rewrite <- !app_assoc).
  rewrite strip_trailing_app by done. cbn [app]. rewrite Hopen.
  rewrite (bool_decide_eq_true_2 (PIECE_PAROPEN = PIECE_PAROPEN)) by done.
  rewrite bool_decide_eq_true_2 by (simpl; rewrite !length_app; simpl; lia).
  cbn [andb tail]. by rewrite removelast_last.
Qed.

(** C6 (amended): for every macro argument that is parsed, the outermost
    parenthesis pair is removed exactly when, after the whitespace around
    the argument has been stripped, the first piece of the argument is a
    ParenOpen and the ParenClose that matches this first ParenOpen is the
    last piece of the argument; and an argument that consists of one
    balanced parenthesis group with nothing but whitespace outside the pair
    loses the outer pair and keeps what is inside it, whitespace and commas
    included. *)
Theorem outer_parentheses_unwrap :
  (∀ (fuel : nat) (g : G) (sh : Shared) (argpieces : list Piece) (stripped : bool)
     (piece : Piece) (g' : G) (sh' : Shared),
     store_argument fuel g sh = Ok (Argument argpieces stripped piece, g', sh') →
     ∃ pulled,
       pulls g sh (pulled ++ [piece]) g' sh'
       ∧ let raw := strip_trailing (drop_leading pulled) in
         stripped = wrapped raw
         ∧ argpieces = (if wrapped raw then removelast (tail raw) else raw))
  ∧ (∀ (fuel : nat) (g : G) (sh : Shared) (lead : list Piece) (open : Piece)
       (inner : list Piece) (close : Piece) (trail : list Piece) (piece : Piece)
       (g' : G) (sh' : Shared),
       pulls g sh (lead ++ [open] ++ (inner ++ [close]) ++ trail ++ [piece]) g' sh' →
       Forall (λ p, is_blank p = true) lead →
       piece_kind open = PIECE_PAROPEN →
       closes_at_end 1 (inner ++ [close]) →
       Forall (λ p, piece_kind p ≠ PIECE_EOF) (inner ++ [close]) →
       piece_kind close = PIECE_PARCLOSE →
       Forall (λ p, is_blank p = true) trail →
       piece_kind piece = PIECE_COMMA ∨ piece_kind piece = PIECE_PARCLOSE →
       length (lead ++ [open] ++ (inner ++ [close]) ++ trail ++ [piece]) < fuel →
       store_argument fuel g sh = Ok (Argument inner true piece, g', sh')).
Proof.
  split.
  - intros fuel g sh argpieces stripped piece g' sh' H.
    apply (store_argument_loop_sound _ _ _ _ _ _ _ _ _ _ _ argument_state_initial) in H
      as (more & Hpulls & _ & Hraw).
    by exists more.
  - intros. by eapply store_argument_wrapped.
Qed.

(** *** The empty call *)

Lemma collect_arguments_nonempty (fuel : nat) (arguments : list (list Piece)) (g : G)
    (call_pos : Position) (macro_def : option DefinePiece) (sh : Shared)
    (result : list (list Piece)) (g' : G) (sh' : Shared) :
  arguments ≠ [] →
  collect_arguments fuel arguments g call_pos macro_def sh = Ok (result, g', sh') →
  result ≠ [].
Proof.
  revert arguments g sh. induction fuel as [|fuel IH]; intros arguments g sh Hne; [done|].
  cbn [collect_arguments].
  destruct (store_argument fuel g sh) as [[[[error|argpieces stripped piece] g1] sh1]|];
    [done| |done].
  case_bool_decide.
  - destruct (bool_decide (length arguments = 0) && bool_decide (length argpieces = 0)
              && negb stripped) eqn:E.
    + by intros [= <- _ _].
    + intros [= <- _ _]. by destruct arguments.
  - case_bool_decide; [|done]. apply IH. by destruct arguments.
Qed.

Lemma find_open_spaces (fuel : nat) (g : G) (call_pos : Position)
    (macro_def : option DefinePiece) (sh : Shared) (spaces : list Piece)
    (g1 : G) (sh1 : Shared) :
  pulls g sh spaces g1 sh1 → Forall (λ p, piece_kind p = PIECE_SPACES) spaces →
  find_open (length spaces + fuel) g call_pos macro_def sh
  = find_open fuel g1 call_pos macro_def sh1.
Proof.
  induction 1 as [|g sh p g1 sh1 ps g' sh' Hget _ IH]; intros Hs; [done|].
  apply Forall_cons in Hs as [Hp Hs]. cbn [length Nat.add find_open].
  rewrite Hget, Hp. rewrite bool_decide_eq_true_2 by done. by apply IH.
Qed.

(** C9: a call whose argument list is an open parenthesis, optional
    whitespace and a closing parenthesis yields zero arguments; and argument
    parsing yields zero arguments exactly when, with no argument collected
    yet, the argument that the closing parenthesis ends has no pieces and
    had no outer parentheses stripped. *)
Theorem empty_call_zero_arguments :
  (∀ (fuel : nat) (g : G) (sh : Shared) (call_pos : Position)
     (macro_def : option DefinePiece) (spaces : list Piece) (open : Piece)
     (blanks : list Piece) (close : Piece) (g' : G) (sh' : Shared),
     pulls g sh (spaces ++ [open] ++ blanks ++ [close]) g' sh' →
     Forall (λ p, piece_kind p = PIECE_SPACES) spaces →
     piece_kind open = PIECE_PAROPEN →
     Forall (λ p, is_blank p = true) blanks →
     piece_kind close = PIECE_PARCLOSE →
     length (spaces ++ [open] ++ blanks ++ [close]) < fuel →
     find_arguments fuel g call_pos macro_def sh = Ok ([], g', sh'))
  ∧ (∀ (fuel : nat) (g : G) (sh : Shared) (call_pos : Position)
       (macro_def : option DefinePiece) (arguments : list (list Piece))
       (g' : G) (sh' : Shared),
       find_arguments fuel g call_pos macro_def sh = Ok (arguments, g', sh') →
       (arguments = [] ↔
        ∃ g1 sh1 piece,
          find_open fuel g call_pos macro_def sh = Ok (g1, sh1)
          ∧ store_argument (fuel - 1) g1 sh1 = Ok (Argument [] false piece, g', sh')
          ∧ piece_kind piece = PIECE_PARCLOSE)).
Proof.
  split.
  - intros fuel g sh call_pos macro_def spaces open blanks close g' sh'
      Hpulls Hspaces Hopen Hblanks Hclose Hfuel.
    apply pulls_app_inv in Hpulls as (g1 & sh1 & Hp1 & Hpulls).
    apply pulls_app_inv in Hpulls as (g2 & sh2 & Hp2 & Hpulls).
    apply pulls_app_inv in Hpulls as (g3 & sh3 & Hp3 & Hp4).
    inversion Hp2 as [|? ? ? ? ? ? ? ? Hget2 Hnil2]; subst. inversion Hnil2; subst.
    inversion Hp4 as [|? ? ? ? ? ? ? ? Hget4 Hnil4]; subst. inversion Hnil4; subst.
    rewrite !length_app in Hfuel. cbn [length] in Hfuel.
    unfold find_arguments.
    replace fuel with (length spaces + (fuel - length spaces)) at 1 by lia.
    rewrite (find_open_spaces _ _ _ _ _ _ _ _ Hp1 Hspaces).
    destruct (fuel - length spaces) as [|fuel1] eqn:Hf1; [lia|].
    cbn [find_open]. rewrite Hget2, Hopen.
    rewrite (bool_decide_eq_false_2 (PIECE_PAROPEN = PIECE_SPACES)) by done.
    rewrite (bool_decide_eq_false_2 (PIECE_PAROPEN ≠ PIECE_PAROPEN)) by auto.
    destruct fuel as [|fuel]; [lia|]. cbn [collect_arguments]. unfold store_argument.
    replace fuel with (length blanks + (fuel - length blanks)) by lia.
    rewrite (store_argument_loop_blanks _ _ _ _ _ _ _ _ _ Hp3 Hblanks).
    destruct (fuel - length blanks) as [|fuel2] eqn:Hf2; [lia|].
    cbn [store_argument_loop]. rewrite Hget4, Hclose.
    rewrite (bool_decide_eq_false_2 (PIECE_PARCLOSE = PIECE_EOF)) by done.
    rewrite (bool_decide_eq_true_2 (PIECE_PARCLOSE = PIECE_PARCLOSE)) by done.
    rewrite orb_true_r. cbn [finish_argument strip_trailing]. by rewrite Hclose.
  - intros fuel g sh call_pos macro_def arguments g' sh'. unfold find_arguments.
    destruct (find_open fuel g call_pos macro_def sh) as [[g1 sh1]|]; [|done].
    destruct fuel as [|fuel]; [done|]. cbn [collect_arguments].
    replace (S fuel - 1) with fuel by lia.
    destruct (store_argument fuel g1 sh1)
      as [[[[error|argpieces stripped piece] g2] sh2]|] eqn:Hsa; [done| |done].
    case_bool_decide as Hclose.
    + destruct argpieces as [|a argpieces], stripped; cbn; intros [= <- <- <-].
      all: split; [intros Hnil|].
      all: try discriminate Hnil.
      all: try (intros (? & ? & ? & [= <- <-] & Hsa' & _);
                rewrite Hsa in Hsa'; discriminate Hsa').
      * by exists g1, sh1, piece.
      * done.
    + case_bool_decide as Hcomma; [|done]. intros Hc. split.
      * intros ->. by apply collect_arguments_nonempty in Hc.
      * intros (? & ? & piece' & [= <- <-] & Hsa' & ?).
        rewrite Hsa in Hsa'. injection Hsa' as -> -> -> -> ->. done.
Qed.

End StoreArgument.

(** ** The expander *)

Section ExpanderProperties.

Context {G : Type} `{!PieceGetter G}.

(** After the name of a call and optional whitespace, anything but an open
    parenthesis, the end of the input included, ends argument parsing with
    the error for a missing open parenthesis. *)
Lemma find_arguments_missing_open (fuel : nat) (g : G) (sh : Shared)
    (call_pos : Position) (macro_def : option DefinePiece) (spaces : list Piece)
    (g1 : G) (sh1 : Shared) :
  pulls g sh spaces g1 sh1 → Forall (λ p, piece_kind p = PIECE_SPACES) spaces →
  (∃ g2 sh2, get g1 sh1 = NoMore g2 sh2)
  ∨ (∃ p g2 sh2, get g1 sh1 = Got p g2 sh2
                 ∧ piece_kind p ≠ PIECE_SPACES ∧ piece_kind p ≠ PIECE_PAROPEN) →
  length spaces < fuel →
  find_arguments fuel g call_pos macro_def sh
  = Err (missing_parentheses "open" call_pos macro_def).
Proof.
  intros Hpulls Hspaces Hnext Hfuel. unfold find_arguments.
  replace fuel with (length spaces + (fuel - length spaces)) at 1 by lia.
  rewrite (find_open_spaces _ _ _ _ _ _ _ _ Hpulls Hspaces).
  destruct (fuel - length spaces) as [|fuel1] eqn:Hf; [lia|]. cbn [find_open].
  destruct Hnext as [(g2 & sh2 & ->)|(p & g2 & sh2 & -> & Hs & Ho)]; [done|].
  rewrite (bool_decide_eq_false_2 _ Hs). by rewrite (bool_decide_eq_true_2 _ Ho).
Qed.

(** For a defined macro the error is the fatal report at the call site. *)
Lemma missing_open_report (call_pos : Position) (macro_def : DefinePiece) :
  missing_parentheses "open" call_pos (Some macro_def)
  = fatal_report [call_pos]
      ("Missing open parentheses for macro call '"
       +:+ default "None" (def_name macro_def) +:+ "'").
Proof. reflexivity. Qed.

(** The round of [expand_stream] on the word [glue], when it is neither a
    parameter nor a defined macro. *)
Lemma expand_stream_glue (fuel : nat) (g : G)
    (parameter_values : gmap string (list Piece)) (expand_nesting : list Frame)
    (sh : Shared) (call : Piece) (g1 : G) (sh1 : Shared)
    (arguments : list (list Piece)) (g2 : G) (sh2 : Shared) :
  get g sh = Got call g1 sh1 →
  piece_kind call = PIECE_IDENTIFIER → get_text call = "glue" →
  parameter_values !! "glue" = None →
  macro_definitions sh1 !! Some "glue" = None →
  find_arguments fuel g1 (piece_pos call) None sh1 = Ok (arguments, g2, sh2) →
  expand_stream (S fuel) g parameter_values expand_nesting sh
  = let '(rest, r) := expand_stream fuel g2 parameter_values expand_nesting sh2 in
    (StrPiece PIECE_TEXT (piece_pos call) (concat_text (concat arguments)) :: rest, r).
Proof.
  intros Hget Hkind Htext Hparam Hmacro Hargs.
  cbn [expand_stream]. rewrite Hget, Hkind, Htext, Hparam, Hmacro, Hargs.
  rewrite (bool_decide_eq_false_2 (PIECE_IDENTIFIER ≠ PIECE_IDENTIFIER)) by auto.
  rewrite (bool_decide_eq_false_2 ("glue" ≠ "glue")) by auto.
  rewrite andb_false_r. reflexivity.
Qed.

(** The round of [expand_stream] on the name of a defined macro, called
    with the right number of arguments. *)
Lemma expand_stream_macro (fuel : nat) (g : G)
    (parameter_values : gmap string (list Piece)) (expand_nesting : list Frame)
    (sh : Shared) (call : Piece) (g1 : G) (sh1 : Shared) (macro_def : DefinePiece)
    (arguments : list (list Piece)) (g2 : G) (sh2 : Shared) :
  get g sh = Got call g1 sh1 →
  piece_kind call = PIECE_IDENTIFIER →
  parameter_values !! get_text call = None →
  macro_definitions sh1 !! Some (get_text call) = Some macro_def →
  find_arguments fuel g1 (piece_pos call) (Some macro_def) sh1 = Ok (arguments, g2, sh2) →
  length (def_parameters macro_def) = length arguments →
  expand_stream (S fuel) g parameter_values expand_nesting sh
  = let inner := expand_nesting ++ [(call, macro_def)] in
    if MAX_EXPAND_LEVEL <? length inner then ([], Err ordered_pos_error)
    else
      match expand_arguments
              (λ arg_getter nesting sh,
                 expand_stream fuel arg_getter parameter_values nesting sh)
              (zip (def_parameters macro_def) arguments) ∅ inner sh2 with
      | Err e => ([], Err e)
      | Ok (arg_table, nesting1, sh3) =>
          match expand_stream fuel (new_ListGetter (def_content macro_def))
                  arg_table nesting1 sh3 with
          | (yielded, Err e) => (yielded, Err e)
          | (yielded, Ok (_, nesting2, sh4)) =>
              let '(rest, r) :=
                expand_stream fuel g2 parameter_values (removelast nesting2) sh4 in
              (yielded ++ rest, r)
          end
      end.
Proof.
  intros Hget Hkind Hparam Hmacro Hargs Harity.
  cbn [expand_stream]. rewrite Hget, Hkind, Hparam, Hmacro, Hargs.
  rewrite (bool_decide_eq_false_2 (PIECE_IDENTIFIER ≠ PIECE_IDENTIFIER)) by auto.
  rewrite (bool_decide_eq_false_2 (Some macro_def = None)) by done.
  rewrite (bool_decide_eq_false_2 (length (def_parameters macro_def) ≠ length arguments))
    by auto.
  reflexivity.
Qed.

End ExpanderProperties.

Lemma expand_arguments_keeps_nesting
    (expand : ListGetter → list Frame → Shared →
              list Piece * Res (ListGetter * list Frame * Shared))
    (pairs : list (Piece * list Piece)) (arg_table : gmap string (list Piece))
    (nesting : list Frame) (sh : Shared) :
  keeps_nesting expand →
  expand_arguments expand pairs arg_table nesting sh
  = expand_arguments (λ arg_getter _ sh, expand arg_getter nesting sh)
      pairs arg_table nesting sh
  ∧ ∀ arg_table' nesting' sh',
      expand_arguments expand pairs arg_table nesting sh
      = Ok (arg_table', nesting', sh') → nesting' = nesting.
Proof.
  intros Hkeeps. revert arg_table sh.
  induction pairs as [|[argpiece argval] pairs IH]; intros arg_table sh.
  { split; [done|]. by intros ? ? ? [= _ <- _]. }
  cbn [expand_arguments]. case_bool_decide; [done|].
  destruct (expand (new_ListGetter argval) nesting sh)
    as [expanded [[[g' nesting'] sh']|e]] eqn:Hexp; [|done].
  apply Hkeeps in Hexp as ->. apply IH.
Qed.

Lemma expand_stream_keeps_nesting (fuel : nat) :
  ∀ (G : Type) (HG : PieceGetter G) (parameter_values : gmap string (list Piece)),
    keeps_nesting (λ (g : G) nesting sh,
                     expand_stream fuel g parameter_values nesting sh).
Proof.
  induction fuel as [|fuel IH]; intros G HG parameter_values; [done|].
  intros g nesting sh yielded g' nesting' sh'.
  assert (Hcontinue : ∀ (ys : list Piece) g0 nesting0 sh0,
    (let '(rest, r) := expand_stream fuel g0 parameter_values nesting0 sh0 in
     (ys ++ rest, r)) = (yielded, Ok (g', nesting', sh')) → nesting' = nesting0).
  { intros ys g0 nesting0 sh0.
    destruct (expand_stream fuel g0 parameter_values nesting0 sh0)
      as [rest r] eqn:Hrest.
    intros [= _ ->]. by apply (IH G HG parameter_values) in Hrest. }
  cbn [expand_stream].
  destruct (get g sh) as [piece g1 sh1|g1 sh1|e]; [|by intros [= _ _ <- _]|done].
  case_bool_decide; [apply Hcontinue|].
  destruct (parameter_values !! get_text piece); [apply Hcontinue|].
  destruct (bool_decide (macro_definitions sh1 !! Some (get_text piece) = None)
            && bool_decide (get_text piece ≠ "glue")); [apply Hcontinue|].
  destruct (find_arguments fuel g1 (piece_pos piece)
              (macro_definitions sh1 !! Some (get_text piece)) sh1)
    as [[[arguments g2] sh2]|]; [|done].
  destruct (macro_definitions sh1 !! Some (get_text piece)) as [macro_def|];
    [|apply Hcontinue].
  case_bool_decide; [done|].
  destruct (MAX_EXPAND_LEVEL <? length (nesting ++ [(piece, macro_def)])); [done|].
  destruct (expand_arguments_keeps_nesting
              (λ arg_getter nesting sh,
                 expand_stream fuel arg_getter parameter_values nesting sh)
              (zip (def_parameters macro_def) arguments) ∅
              (nesting ++ [(piece, macro_def)]) sh2 (IH _ _ parameter_values))
    as [_ Hargs].
  destruct (expand_arguments _ _ _ _ _) as [[[arg_table nesting1] sh3]|]; [|done].
  rewrite (Hargs _ _ _ eq_refl).
  destruct (expand_stream fuel (new_ListGetter (def_content macro_def)) arg_table
              (nesting ++ [(piece, macro_def)]) sh3)
    as [ys [[[g3 nesting2] sh4]|]] eqn:Hcontent; [|done].
  apply (IH _ _ arg_table) in Hcontent as ->. rewrite removelast_last.
  apply Hcontinue.
Qed.

(** ** Runs of the whole program on small inputs *)


(** C2 (amended): an identifier piece with the text [glue] that is not bound
    as a parameter triggers the literal concatenation of its arguments when
    no macro named glue is in the macro table; when a macro named glue has
    been defined, resolution goes through the macro table and the call is
    expanded as a call of that definition. *)
Theorem glue_resolution :
  ∀ (G : Type) (HG : PieceGetter G) (fuel : nat) (g : G)
    (parameter_values : gmap string (list Piece)) (expand_nesting : list Frame)
    (sh : Shared) (call : Piece) (g1 : G) (sh1 : Shared)
    (arguments : list (list Piece)) (g2 : G) (sh2 : Shared),
    get g sh = Got call g1 sh1 →
    piece_kind call = PIECE_IDENTIFIER → get_text call = "glue" →
    parameter_values !! "glue" = None →
    find_arguments fuel g1 (piece_pos call) (macro_definitions sh1 !! Some "glue") sh1
    = Ok (arguments, g2, sh2) →
    match macro_definitions sh1 !! Some "glue" with
    | None =>
        expand_stream (S fuel) g parameter_values expand_nesting sh
        = let '(rest, r) := expand_stream fuel g2 parameter_values expand_nesting sh2 in
          (StrPiece PIECE_TEXT (piece_pos call) (concat_text (concat arguments)) :: rest, r)
    | Some macro_def =>
        length (def_parameters macro_def) = length arguments →
        length expand_nesting < MAX_EXPAND_LEVEL →
        expand_stream (S fuel) g parameter_values expand_nesting sh
        = let inner := expand_nesting ++ [(call, macro_def)] in
          match expand_arguments
                  (λ arg_getter nesting sh,
                     expand_stream fuel arg_getter parameter_values nesting sh)
                  (zip (def_parameters macro_def) arguments) ∅ inner sh2 with
          | Err e => ([], Err e)
          | Ok (arg_table, nesting1, sh3) =>
              match expand_stream fuel (new_ListGetter (def_content macro_def))
                      arg_table nesting1 sh3 with
              | (yielded, Err e) => (yielded, Err e)
              | (yielded, Ok (_, nesting2, sh4)) =>
                  let '(rest, r) :=
                    expand_stream fuel g2 parameter_values (removelast nesting2) sh4 in
                  (yielded ++ rest, r)
              end
          end
    end.
Proof.
  intros G HG fuel g parameter_values expand_nesting sh call g1 sh1 arguments g2 sh2
    Hget Hkind Htext Hparam Hargs.
  destruct (macro_definitions sh1 !! Some "glue") as [macro_def|] eqn:Hmacro.
  - intros Harity Hdepth.
    rewrite (expand_stream_macro fuel g parameter_values expand_nesting sh call g1 sh1
               macro_def arguments g2 sh2); try done; try (by rewrite Htext).
    cbn zeta. rewrite length_app. cbn [length].
    replace (MAX_EXPAND_LEVEL <? length expand_nesting + 1) with false; [done|].
    symmetry. apply Nat.ltb_ge. lia.
  - by eapply expand_stream_glue.
Qed.


(** C3 (the code at the failing input): the macro M defined as a call of
    itself and called once.  When the eleventh frame is pushed, the call
    that should report the call sites raises a TypeError, as [report_error]
    has no parameter [ordered_pos]: no report of the frames is printed. *)
Theorem depth_limit_report_fails :
  run_on "define M() M() endmacro M()"
  = (Some (Expanded " " None []), Uncaught ordered_pos_error).
Proof. vm_compute. reflexivity. Qed.

(** C5 (the code at the failing input): the word glue with no parenthesis
    after it.  The report of the missing open parenthesis reads the name of
    a macro definition that glue does not have, and an AttributeError is
    raised instead of the report. *)
Theorem glue_without_parenthesis_fails :
  run_on "glue"
  = (Some (Expanded EmptyString None []),
     Uncaught (AttributeError "'NoneType' object has no attribute 'name'")).
Proof. vm_compute. reflexivity. Qed.

(** ** Instances and counterexamples *)



(** The claim of C2 as it was stated: with a macro named glue defined, a
    call of glue would still concatenate its arguments, here to [a]. *)
Lemma defined_glue_is_expanded :
  ∃ written,
    run_on "define glue(x) [x] endmacro glue(a)"
    = (Some (Expanded written None []), ExitNormally)
    ∧ written = " [a]" ∧ written ≠ " a".
Proof. exists " [a]". split; [vm_compute; reflexivity|]. split; [done|discriminate]. Qed.

Lemma glue_resolution_witness :
  expand_stream 21 (new_ListGetter call_of_glue) ∅ [] glue_defined
  = ([StrPiece PIECE_TEXT (at_col 15) "["; word 5 "a"; StrPiece PIECE_TEXT (at_col 17) "]"],
     Ok (mkListGetter call_of_glue None, [], glue_defined)).
Proof.
  pose proof (glue_resolution ListGetter ListGetter_get 20 (new_ListGetter call_of_glue) ∅ []
                glue_defined (word 0 "glue") (mkListGetter call_of_glue (Some 0%Z))
                glue_defined [[word 5 "a"]] (mkListGetter call_of_glue (Some 3%Z))
                glue_defined
                ltac:(vm_compute; reflexivity) ltac:(vm_compute; reflexivity)
                ltac:(vm_compute; reflexivity) ltac:(vm_compute; reflexivity)
                ltac:(vm_compute; reflexivity)) as H.
  change (macro_definitions glue_defined !! Some "glue") with (Some bracket_def) in H.
  rewrite H.
  - vm_compute. reflexivity.
  - reflexivity.
  - vm_compute. lia.
Defined.


(** Its outer pair is removed although its first ParenClose is not its last
    piece. *)
Lemma unwrap_first_close_counterexample :
  store_argument 20 (new_ListGetter (nested_argument ++ [comma 6])) nothing_shared
  = Ok (Argument [paropen 1; word 2 "a"; parclose 3; word 4 "b"] true (comma 6),
        mkListGetter (nested_argument ++ [comma 6]) (Some 6%Z), nothing_shared)
  ∧ wrapped_by_first_close nested_argument = false.
Proof. split; vm_compute; reflexivity. Qed.

Lemma pulls_list (elems : list Piece) (sh : Shared) (i : nat) (ps : list Piece) :
  (∀ k p, ps !! k = Some p → elems !! (i + k) = Some p) →
  i + length ps < length elems →
  pulls (mkListGetter elems (Some (Z.of_nat i - 1)%Z)) sh ps
    (mkListGetter elems (Some (Z.of_nat (i + length ps) - 1)%Z)) sh.
Proof.
  revert i. induction ps as [|p ps IH]; intros i Hps Hlen.
  - simpl. rewrite Nat.add_0_r. constructor.
  - econstructor.
    + unfold get, ListGetter_get. cbn [index elements].
      rewrite bool_decide_eq_false_2 by (simpl in Hlen; lia).
      rewrite bool_decide_eq_true_2 by lia.
      replace (Z.to_nat (Z.of_nat i - 1 + 1)) with (i + 0) by lia.
      rewrite (Hps 0 p eq_refl). reflexivity.
    + replace (Z.of_nat i - 1 + 1)%Z with (Z.of_nat (S i) - 1)%Z by lia.
      replace (i + length (p :: ps)) with (S i + length ps) by (simpl; lia).
      apply IH.
      * intros k q Hq. replace (S i + k) with (i + S k) by lia. by apply Hps.
      * simpl in Hlen. lia.
Qed.

Lemma outer_parentheses_unwrap_witness :
  store_argument 20 (new_ListGetter wrapped_argument) nothing_shared
  = Ok (Argument [word 2 "a"; space 3; word 4 "b"] true (comma 7),
        mkListGetter wrapped_argument (Some 7%Z), nothing_shared).
Proof.
  apply (proj2 (outer_parentheses_unwrap (G:=ListGetter)) 20
           (new_ListGetter wrapped_argument) nothing_shared [space 0] (paropen 1)
           [word 2 "a"; space 3; word 4 "b"] (parclose 5) [space 6] (comma 7)).
  - apply (pulls_list wrapped_argument nothing_shared 0
             [space 0; paropen 1; word 2 "a"; space 3; word 4 "b"; parclose 5; space 6;
              comma 7]).
    + intros k p Hk. simpl. destruct k as [|[|[|[|[|[|[|[|k]]]]]]]]; try done.
    + simpl. lia.
  - by repeat constructor.
  - reflexivity.
  - reflexivity.
  - by repeat constructor.
  - reflexivity.
  - by repeat constructor.
  - by left.
  - simpl. lia.
Defined.

Lemma empty_call_zero_arguments_witness :
  find_arguments 20 (new_ListGetter empty_call) (at_col 0) None nothing_shared
  = Ok ([], mkListGetter empty_call (Some 3%Z), nothing_shared).
Proof.
  apply (proj1 (empty_call_zero_arguments (G:=ListGetter)) 20
           (new_ListGetter empty_call) nothing_shared (at_col 0) None
           [space 1] (paropen 2) [space 3] (parclose 4)).
  - apply (pulls_list empty_call nothing_shared 0
             [space 1; paropen 2; space 3; parclose 4]).
    + intros k p Hk. simpl. destruct k as [|[|[|[|k]]]]; try done.
    + simpl. lia.
  - by repeat constructor.
  - reflexivity.
  - by repeat constructor.
  - reflexivity.
  - simpl. lia.
Defined.


(** The word [define] at the start of a file, in the first state. *)
Lemma match_state_selects_witness :
  let toks := default [] (tokenize ascii_words None "define x") in
  let p := default (eof_piece None 0) (head toks) in
  let edges := edges_of (state_at STATE1) in
  select_edge edges p = List.find (λ e, edge_matches_spec e p) edges
  ∧ ∀ e, select_edge edges p = Some e →
         edge_kind e = piece_kind p ∧ ∀ t, edge_text e = Some t → t = get_text p.
Proof.
  intros toks p edges.
  apply (match_state_selects_first_matching_edge ascii_words None "define x" toks p
           STATE1 "none" edges).
  - vm_compute. reflexivity.
  - apply list_elem_of_In. vm_compute. left. reflexivity.
  - apply list_elem_of_In. vm_compute. left. reflexivity.
Defined.

